(** * Musico 777: the effect-graph engine of [src/context/audio-context.tsx]

    The development embeds the provider component [AudioProvider]: the
    catalog [availableEffects], the activation list [activeEffectIds] with
    [toggleEffect], the effect that rebuilds the Web Audio chain, the
    Random FX shuffle, and the recording effect with its file name.

    Conventions of the embedding.
    - Effect ids are JavaScript numbers holding integers: [Z].
    - Playback rates are decimal literals that are only assigned and
      compared, never computed with: [Q] literals compared structurally.
    - Audio nodes are JavaScript objects compared by reference: a node is a
      serial number (the order of creation) tagged with what created it.
    - The sub-graph that one [apply] builds between its [source] argument
      and the node it returns is kept as that returned node; the catalog
      records, per effect, whether [source] is connected into the sub-graph,
      which rate it writes, and which never-ending activities it starts
      ([requestAnimationFrame] loops, started oscillators and noise
      sources).
    - React state setters followed by the effects they schedule are run in
      sequence: a setter called with the current value schedules nothing. *)

From Stdlib Require Import ZArith QArith Qround String Ascii List Bool Lia.
From Stdlib Require Import Sorted Permutation.
From stdpp Require Import base list.
Import ListNotations.

Local Open Scope Z_scope.

(** ** JavaScript string operations used by the file name *)

Module Text.

(** ASCII members of the regular-expression class [\s]. *)
Definition isWhitespace (c : ascii) : bool :=
  let n := nat_of_ascii c in
  ((9 <=? n)%nat && (n <=? 13)%nat) || (n =? 32)%nat.

Definition lowerChar (c : ascii) : ascii :=
  let n := nat_of_ascii c in
  if ((65 <=? n)%nat && (n <=? 90)%nat)%bool then ascii_of_nat (n + 32) else c.

(** [s.toLowerCase()] on ASCII text. *)
Fixpoint toLowerCase (s : string) : string :=
  match s with
  | EmptyString => EmptyString
  | String c s' => String (lowerChar c) (toLowerCase s')
  end.

(** [s.replace(/\s+/g, "-")]: every maximal run of whitespace becomes one
    hyphen. [inRun] tells that the previous character was whitespace. *)
Fixpoint replaceRuns (inRun : bool) (s : string) : string :=
  match s with
  | EmptyString => EmptyString
  | String c s' =>
      if isWhitespace c
      then if inRun then replaceRuns true s'
           else String "-" (replaceRuns true s')
      else String c (replaceRuns false s')
  end.

Definition replaceWhitespace (s : string) : string := replaceRuns false s.

(** [s.split(sep)] for a one-character separator. *)
Fixpoint split (sep : ascii) (s : string) : list string :=
  match s with
  | EmptyString => [EmptyString]
  | String c s' =>
      if Ascii.eqb c sep then EmptyString :: split sep s'
      else match split sep s' with
           | h :: t => String c h :: t
           | [] => [String c EmptyString]
           end
  end.

(** [parts.join(sep)]. *)
Fixpoint join (sep : string) (parts : list string) : string :=
  match parts with
  | [] => EmptyString
  | [p] => p
  | p :: rest => (p ++ sep ++ join sep rest)%string
  end.

(** The empty string is falsy. *)
Definition truthy (s : string) : bool :=
  match s with EmptyString => false | _ => true end.

Fixpoint endsWith (suffix s : string) : bool :=
  if String.eqb s suffix then true
  else match s with
       | EmptyString => false
       | String _ s' => endsWith suffix s'
       end.

Fixpoint contains (c : ascii) (s : string) : bool :=
  match s with
  | EmptyString => false
  | String d s' => Ascii.eqb d c || contains c s'
  end.

End Text.

(** ** The catalog [availableEffects] *)

Module Catalog.

(** What an [apply] does with its [source] argument. *)
Inductive Body :=
| Passthrough
    (** creates nothing and returns [source] itself *)
| Subgraph (inputConnected : bool) (rafLoops : nat) (startedSources : nat)
    (** creates nodes and returns a new one; [inputConnected] tells
        whether some [source.connect(...)] feeds the new nodes;
        [rafLoops] counts self-rescheduling [requestAnimationFrame]
        callbacks, [startedSources] the [.start()] calls on oscillators
        and looping buffer sources *)
| RandomThree
    (** shuffles the other effects and applies the first three *).

Record AudioEffect := mkEffect {
  id : Z;
  name : string;
  rateWrite : option Q;   (** [audioRef.current.playbackRate = r] *)
  body : Body
}.

Definition availableEffects : list AudioEffect := [
  mkEffect 1 "Bass Boost" None (Subgraph true 0 0);
  mkEffect 2 "8D Audio" None (Subgraph true 1 0);
  mkEffect 3 "Reverb" None (Subgraph true 0 0);
  mkEffect 4 "Nightcore" (Some 1.3%Q) Passthrough;
  mkEffect 5 "Vaporwave" (Some 0.8%Q) Passthrough;
  mkEffect 6 "Distortion" None (Subgraph true 0 0);
  mkEffect 7 "Telephone" None (Subgraph true 0 0);
  mkEffect 8 "Lo-Fi" None (Subgraph true 0 0);
  mkEffect 9 "Pitch Shift Up" (Some 1.2%Q) Passthrough;
  mkEffect 10 "Pitch Shift Down" (Some 0.85%Q) Passthrough;
  mkEffect 11 "Chorus" None (Subgraph true 0 1);
  mkEffect 12 "Tremolo" None (Subgraph true 0 1);
  mkEffect 13 "Vibrato" None (Subgraph true 0 1);
  mkEffect 14 "Compressor" None (Subgraph true 0 0);
  mkEffect 15 "Delay" None (Subgraph true 0 0);
  mkEffect 16 "Stereo Widener" None (Subgraph true 0 0);
  mkEffect 17 "Vinyl" None (Subgraph true 0 1);
  mkEffect 18 "AM Radio" None (Subgraph true 0 0);
  mkEffect 19 "Bitcrusher" None (Subgraph true 0 0);
  mkEffect 20 "Underwater" None (Subgraph true 0 0);
  mkEffect 21 "Auto-Tune" None (Subgraph true 0 0);
  mkEffect 22 "Vocoder" None (Subgraph true 0 0);
  mkEffect 23 "Harmonizer" None (Subgraph true 0 0);
  mkEffect 24 "Voice Changer" None (Subgraph true 0 0);
  mkEffect 25 "Whisper" None (Subgraph true 0 1);
  mkEffect 26 "Megaphone" None (Subgraph true 0 0);
  mkEffect 27 "Chipmunk" (Some 1.5%Q) (Subgraph true 0 0);
  mkEffect 28 "Monster Voice" (Some 0.7%Q) (Subgraph true 0 0);
  mkEffect 29 "Mono to Stereo" None (Subgraph true 0 0);
  mkEffect 30 "Binaural Beat" None (Subgraph true 0 2);
  mkEffect 31 "Ambisonic" None (Subgraph true 0 0);
  mkEffect 32 "HRTF" None (Subgraph true 0 1);
  mkEffect 33 "Tape Saturation" None (Subgraph true 0 0);
  mkEffect 34 "Cassette" None (Subgraph true 0 2);
  mkEffect 35 "VHS Audio" None (Subgraph true 0 2);
  mkEffect 36 "Granular" None (Subgraph false 0 0);
  mkEffect 37 "Reverse" None (Subgraph true 0 0);
  mkEffect 38 "Glitch" None (Subgraph true 0 0);
  mkEffect 39 "Stutter" None (Subgraph true 0 0);
  mkEffect 40 "Time Stretch" (Some 0.7%Q) Passthrough;
  mkEffect 41 "Formant Shift" None (Subgraph true 0 0);
  mkEffect 42 "Autotune Extreme" None (Subgraph true 0 0);
  mkEffect 43 "Bluetooth Quality" None (Subgraph true 0 0);
  mkEffect 44 "Phone Call" None (Subgraph true 0 1);
  mkEffect 45 "Stadium Echo" None (Subgraph true 0 0);
  mkEffect 46 "Cathedral" None (Subgraph true 0 0);
  mkEffect 47 "Random FX" None RandomThree;
  mkEffect 48 "Custom Chain" None (Subgraph true 0 0);
  mkEffect 49 "Pitch Stretch" None (Subgraph true 0 0);
  mkEffect 50 "Flanger" None (Subgraph true 0 1)
].

Definition catalogIds : list Z := List.map id availableEffects.

(** [ids.includes(i)] *)
Definition includes (ids : list Z) (i : Z) : bool :=
  List.existsb (Z.eqb i) ids.

Definition inCatalog (i : Z) : bool := includes catalogIds i.

(** [effect.apply] writes the playback rate. *)
Definition rateAffecting (e : AudioEffect) : bool :=
  match rateWrite e with Some _ => true | None => false end.

End Catalog.

(** ** The activation list *)

Module Activation.
Import Catalog.

(** [toggleEffect]: the updater passed to [setActiveEffectIds]. *)
Definition toggleEffect (effectId : Z) (prev : list Z) : list Z :=
  if includes prev effectId
  then List.filter (fun i => negb (i =? effectId)) prev
  else prev ++ [effectId].

(** [const activeEffects = availableEffects.filter(...)] *)
Definition activeEffects (activeEffectIds : list Z) : list AudioEffect :=
  List.filter (fun e => includes activeEffectIds (id e)) availableEffects.


End Activation.

(** ** The browser, as far as the engine depends on it *)

Module Browser.

Record Host := mkHost {
  (** node construction inside [apply] of the effect with this id raises
      (a factory such as [createStereoPanner] or [createScriptProcessor]
      is missing). The exception leaves at the first factory call of
      the [apply]: after its write of the playback rate, where it has
      one, and before it connects or starts anything. *)
  raises : Z -> bool;
  (** the value of the k-th [Math.random()] call made by a shuffle *)
  random : nat -> Q;
  (** [MediaRecorder.isTypeSupported("audio/mp3")] *)
  mp3Supported : bool;
  (** [new MediaRecorder(...)] raises *)
  recorderRaises : bool;
  (** the promise of [audio.play()] is rejected *)
  playRejects : bool;
  (** the promise of [audioContext.resume()] is rejected *)
  resumeRejects : bool
}.

(** A browser in which every node factory works. *)
Definition reliable (rnd : nat -> Q) : Host :=
  mkHost (fun _ => false) rnd true false false false.

(** A browser whose audio context has no [createStereoPanner], as the
    prefixed [webkitAudioContext] the engine falls back to: the five
    effects that call it raise before they connect or start anything. *)
Definition withoutStereoPanner (rnd : nat -> Q) : Host :=
  mkHost (fun i => List.existsb (Z.eqb i) [2; 16; 29; 30; 31]) rnd
    true false false false.

End Browser.

(** ** Random FX: filter, Fisher-Yates shuffle, first three *)

Module RandomFX.
Import Catalog.

(** [Math.floor(r * n)] *)
Definition floorIndex (r : Q) (n : nat) : nat :=
  Z.to_nat (Qfloor (r * inject_Z (Z.of_nat n))).

(** [[a[i], a[j]] = [a[j], a[i]]]: the right-hand side is read first, then
    [a[i]] and [a[j]] are written in that order. The loop only produces
    indices inside the array; outside it the array is left as it is. *)
Definition swap (i j : nat) (a : list AudioEffect) : list AudioEffect :=
  match a !! i, a !! j with
  | Some x, Some y => <[j := x]> (<[i := y]> a)
  | _, _ => a
  end.

(** [for (let i = ...; i > 0; i--)], entered with the current [i];
    [calls] counts the [Math.random()] calls made before. *)
Fixpoint shuffleFrom (rnd : nat -> Q) (calls : nat) (i : nat)
    (a : list AudioEffect) : list AudioEffect :=
  match i with
  | O => a
  | S i' =>
      let j := floorIndex (rnd calls) (i + 1) in
      shuffleFrom rnd (S calls) i' (swap i j a)
  end.

(** [[...availableEffects].filter((effect) => effect.id !== 47)] *)
Definition availableEffectsCopy : list AudioEffect :=
  List.filter (fun e => negb (id e =? 47)) availableEffects.

Definition shuffled (rnd : nat -> Q) (calls : nat) : list AudioEffect :=
  shuffleFrom rnd calls (length availableEffectsCopy - 1) availableEffectsCopy.

(** [availableEffectsCopy.slice(0, 3)] after the shuffle. *)
Definition selectedEffects (rnd : nat -> Q) (calls : nat) : list AudioEffect :=
  take 3 (shuffled rnd calls).

(** [Math.random()] returns a number in [0, 1). *)
Definition unitInterval (rnd : nat -> Q) : Prop :=
  forall k, (0 <= rnd k)%Q /\ (rnd k < 1)%Q.

End RandomFX.

(** ** The audio graph and the rebuild effect *)

Module Compositor.
Import Catalog Activation Browser RandomFX.

Inductive NodeKind :=
| ContextDestination
| MediaElementSource
| MasterGain
| StageNode (owner : Z)
| StreamDestination.

Record AudioNode := mkNode { serial : nat; kind : NodeKind }.

(** Reference equality of node objects. *)
Definition sameNode (a b : AudioNode) : bool := (serial a =? serial b)%nat.

Inductive ContextState := Suspended | Running | Closed.

(** Activities that keep running until they are stopped explicitly: a
    callback that reschedules itself with [requestAnimationFrame], and an
    oscillator or looping buffer source after [start()]. [owner] is the id
    of the effect whose [apply] started it. *)
Inductive Task :=
| AnimationLoop (owner : Z)
| StartedSource (owner : Z).

Record Engine := mkEngine {
  activeEffectIds : list Z;
  audioContextInitialized : bool;
  audioContextRef : option ContextState;
  sourceNodeRef : option AudioNode;
  gainNodeRef : option AudioNode;
  (** [effectNodesRef.current]: a [Map], iterated in insertion order *)
  effectNodesRef : list (Z * AudioNode);
  (** [(a, b)] stands for [a.connect(b)] still in force *)
  connections : list (AudioNode * AudioNode);
  (** nodes created so far; the next node gets this serial *)
  created : nat;
  (** [audioRef.current.playbackRate]; the element is created by the
      mount effect before anything else runs and is never replaced *)
  playbackRate : Q;
  background : list Task;
  (** [Math.random()] calls made by shuffles so far *)
  randomCalls : nat
}.

Definition withIds (ids : list Z) (st : Engine) : Engine :=
  mkEngine ids (audioContextInitialized st) (audioContextRef st)
    (sourceNodeRef st) (gainNodeRef st) (effectNodesRef st) (connections st)
    (created st) (playbackRate st) (background st) (randomCalls st).

Definition withEffectNodes (m : list (Z * AudioNode)) (st : Engine) : Engine :=
  mkEngine (activeEffectIds st) (audioContextInitialized st) (audioContextRef st)
    (sourceNodeRef st) (gainNodeRef st) m (connections st)
    (created st) (playbackRate st) (background st) (randomCalls st).

Definition withConnections (c : list (AudioNode * AudioNode)) (st : Engine) : Engine :=
  mkEngine (activeEffectIds st) (audioContextInitialized st) (audioContextRef st)
    (sourceNodeRef st) (gainNodeRef st) (effectNodesRef st) c
    (created st) (playbackRate st) (background st) (randomCalls st).

Definition withCreated (n : nat) (st : Engine) : Engine :=
  mkEngine (activeEffectIds st) (audioContextInitialized st) (audioContextRef st)
    (sourceNodeRef st) (gainNodeRef st) (effectNodesRef st) (connections st)
    n (playbackRate st) (background st) (randomCalls st).

Definition withPlaybackRate (r : Q) (st : Engine) : Engine :=
  mkEngine (activeEffectIds st) (audioContextInitialized st) (audioContextRef st)
    (sourceNodeRef st) (gainNodeRef st) (effectNodesRef st) (connections st)
    (created st) r (background st) (randomCalls st).

Definition withBackground (b : list Task) (st : Engine) : Engine :=
  mkEngine (activeEffectIds st) (audioContextInitialized st) (audioContextRef st)
    (sourceNodeRef st) (gainNodeRef st) (effectNodesRef st) (connections st)
    (created st) (playbackRate st) b (randomCalls st).

Definition withRandomCalls (k : nat) (st : Engine) : Engine :=
  mkEngine (activeEffectIds st) (audioContextInitialized st) (audioContextRef st)
    (sourceNodeRef st) (gainNodeRef st) (effectNodesRef st) (connections st)
    (created st) (playbackRate st) (background st) k.

(** [audioContext.createX()] *)
Definition createNode (k : NodeKind) (st : Engine) : AudioNode * Engine :=
  (mkNode (created st) k, withCreated (S (created st)) st).

Definition connected (a b : AudioNode) (c : list (AudioNode * AudioNode)) : bool :=
  List.existsb (fun e => sameNode (fst e) a && sameNode (snd e) b) c.

(** [a.connect(b)]; connecting a pair that is connected changes nothing. *)
Definition connect (a b : AudioNode) (st : Engine) : Engine :=
  if connected a b (connections st) then st
  else withConnections (connections st ++ [(a, b)]) st.

(** [a.disconnect()]: all outgoing connections of [a] go. *)
Definition disconnect (a : AudioNode) (st : Engine) : Engine :=
  withConnections
    (List.filter (fun e => negb (sameNode (fst e) a)) (connections st)) st.

(** [a.disconnect(b)] *)
Definition disconnectFrom (a b : AudioNode) (st : Engine) : Engine :=
  withConnections
    (List.filter (fun e => negb (sameNode (fst e) a && sameNode (snd e) b))
       (connections st)) st.

(** [map.set(key, node)] keeps the position of a key that is present. *)
Fixpoint mapSet (key : Z) (n : AudioNode) (m : list (Z * AudioNode))
    : list (Z * AudioNode) :=
  match m with
  | [] => [(key, n)]
  | (k, v) :: m' => if k =? key then (k, n) :: m' else (k, v) :: mapSet key n m'
  end.

Definition writeRate (r : option Q) (st : Engine) : Engine :=
  match r with
  | Some q => withPlaybackRate q st
  | None => st
  end.

Definition startTasks (owner : Z) (rafLoops startedSources : nat) (st : Engine)
    : Engine :=
  withBackground
    (background st ++ repeat (AnimationLoop owner) rafLoops
                   ++ repeat (StartedSource owner) startedSources) st.

Inductive Outcome (A : Type) :=
| Returned (value : A) (st : Engine)
| Threw (culprit : Z) (st : Engine)
    (** an exception left the function; [st] is what it had done *)
| Diverged
    (** the nesting of Random FX inside Random FX exceeded the fuel *).
Arguments Returned {A} value st.
Arguments Threw {A} culprit st.
Arguments Diverged {A}.

(** [for (const effect of es) currentNode = effect.apply(ctx, currentNode)] *)
Definition chain (step : AudioEffect -> AudioNode -> Engine -> Outcome AudioNode)
    : list AudioEffect -> AudioNode -> Engine -> Outcome AudioNode :=
  fix go es currentNode st :=
    match es with
    | [] => Returned currentNode st
    | e :: es' =>
        match step e currentNode st with
        | Returned n st' => go es' n st'
        | Threw c st' => Threw c st'
        | Diverged => Diverged
        end
    end.

(** [effect.apply(audioContext, source)]. [fuel] bounds how deep Random FX
    may call the [apply] of another Random FX. *)
Fixpoint applyEffect (h : Host) (fuel : nat) (e : AudioEffect)
    (source : AudioNode) (st : Engine) : Outcome AudioNode :=
  let st1 := writeRate (rateWrite e) st in
  match body e with
  | Passthrough => Returned source st1
  | Subgraph inputConnected rafLoops startedSources =>
      if raises h (id e) then Threw (id e) st1
      else
        let (out, st2) := createNode (StageNode (id e)) st1 in
        let st3 := startTasks (id e) rafLoops startedSources st2 in
        Returned out (if inputConnected then connect source out st3 else st3)
  | RandomThree =>
      match fuel with
      | O => Diverged
      | S fuel' =>
          let selected := selectedEffects (random h) (randomCalls st1) in
          let st2 :=
            withRandomCalls (randomCalls st1 + (length availableEffectsCopy - 1)) st1 in
          chain (applyEffect h fuel') selected source st2
      end
  end.

(** The [forEach] over [activeEffects] in the rebuild. *)
Fixpoint applyActive (h : Host) (fuel : nat) (es : list AudioEffect)
    (currentNode : AudioNode) (st : Engine) : Outcome AudioNode :=
  match es with
  | [] => Returned currentNode st
  | e :: es' =>
      match applyEffect h fuel e currentNode st with
      | Returned effectNode st' =>
          applyActive h fuel es' effectNode
            (withEffectNodes (mapSet (id e) effectNode (effectNodesRef st')) st')
      | Threw c st' => Threw c st'
      | Diverged => Diverged
      end
  end.

Definition speedNames : list string :=
  ["Nightcore"; "Vaporwave"; "Pitch Shift Up"; "Pitch Shift Down"]%string.

(** [activeEffects.some((effect) => [...].includes(effect.name))] *)
Definition speedEffectActive (es : list AudioEffect) : bool :=
  List.existsb (fun e => List.existsb (String.eqb (name e)) speedNames) es.

(** [effectNodesRef.current.forEach((node) => node.disconnect())] *)
Definition disconnectAll (st : Engine) : Engine :=
  List.fold_left (fun s kv => disconnect (snd kv) s) (effectNodesRef st) st.

(** The effect "Apply effects when they change". *)
Definition rebuild (h : Host) (fuel : nat) (st : Engine) : Outcome unit :=
  match audioContextInitialized st, audioContextRef st,
        sourceNodeRef st, gainNodeRef st with
  | true, Some _, Some sourceNode, Some gainNode =>
      let st1 := withEffectNodes [] (disconnectAll st) in
      let st2 := disconnect sourceNode st1 in
      let es := activeEffects (activeEffectIds st) in
      match applyActive h fuel es sourceNode st2 with
      | Returned currentNode st3 =>
          let st4 := connect currentNode gainNode st3 in
          Returned tt
            (if negb (speedEffectActive es) then withPlaybackRate 1.0%Q st4
             else st4)
      | Threw c st3 => Threw c st3
      | Diverged => Diverged
      end
  | _, _, _, _ => Returned tt st
  end.

(** One click on an effect tile: the state update, then the effect that
    depends on [activeEffectIds]. *)
Definition click (h : Host) (fuel : nat) (effectId : Z) (st : Engine)
    : Outcome unit :=
  rebuild h fuel (withIds (toggleEffect effectId (activeEffectIds st)) st).

(** Clicks in sequence; an exception that leaves an effect ends the run. *)
Fixpoint clicks (h : Host) (fuel : nat) (ids : list Z) (st : Engine)
    : Outcome unit :=
  match ids with
  | [] => Returned tt st
  | i :: rest =>
      match click h fuel i st with
      | Returned _ st' => clicks h fuel rest st'
      | Threw c st' => Threw c st'
      | Diverged => Diverged
      end
  end.

(** [initializeAudioContext]: a new context (created outside a user
    gesture, hence suspended) with its destination, the source node and the
    master gain node, connected source to gain to destination. *)
Definition initializeAudioContext (st : Engine) : Engine :=
  let destination := mkNode (created st) ContextDestination in
  let sourceNode := mkNode (S (created st)) MediaElementSource in
  let gainNode := mkNode (S (S (created st))) MasterGain in
  mkEngine (activeEffectIds st) true (Some Suspended)
    (Some sourceNode) (Some gainNode) (effectNodesRef st)
    [(sourceNode, gainNode); (gainNode, destination)]
    (S (S (S (created st)))) (playbackRate st) (background st) (randomCalls st).

(** The component after mount and before a file is loaded. *)
Definition mounted : Engine :=
  mkEngine [] false None None None [] [] 0 1.0%Q [] 0.

(** The engine right after the first file is loaded and initialised. *)
Definition loaded : Engine := initializeAudioContext mounted.

(** The engine after the first run of the rebuild effect, which React
    schedules when [audioContextInitialized] becomes true. No effect is
    active then, so neither the browser nor the fuel matters. *)
Definition settled : Engine :=
  match rebuild (reliable (fun _ => 0%Q)) 1 loaded with
  | Returned _ st => st
  | _ => loaded
  end.

(** *** Observations *)

(** The effects in the order the forEach applied and registered them. *)
Definition chainOrder (st : Engine) : list Z := List.map fst (effectNodesRef st).

Definition stageCount (st : Engine) : nat := length (effectNodesRef st).

(** The node that [a] feeds, if any. *)
Definition successor (c : list (AudioNode * AudioNode)) (a : AudioNode)
    : option AudioNode :=
  match List.find (fun e => sameNode (fst e) a) c with
  | Some e => Some (snd e)
  | None => None
  end.

(** Follow the connections from [a] until the master gain node, a node
    that feeds nothing, or [fuel] steps. *)
Fixpoint walk (fuel : nat) (c : list (AudioNode * AudioNode)) (a : AudioNode)
    : list AudioNode :=
  match fuel with
  | O => [a]
  | S fuel' =>
      match kind a with
      | MasterGain => [a]
      | _ => match successor c a with
             | Some b => a :: walk fuel' c b
             | None => [a]
             end
      end
  end.

(** The kinds of the nodes on the way from the source node. *)
Definition signalPath (st : Engine) : list NodeKind :=
  match sourceNodeRef st with
  | Some s => List.map kind (walk (created st) (connections st) s)
  | None => []
  end.

(** Source connected directly to the master gain node and to nothing else,
    no effect node registered. *)
Definition fallbackGraph (st : Engine) : bool :=
  match sourceNodeRef st, gainNodeRef st, effectNodesRef st with
  | Some s, Some g, [] =>
      connected s g (connections st)
      && List.forallb (fun e => negb (sameNode (fst e) s) || sameNode (snd e) g)
           (connections st)
  | _, _, _ => false
  end.

(** Some node feeds the master gain node. *)
Definition gainFed (st : Engine) : bool :=
  match gainNodeRef st with
  | Some g => List.existsb (fun e => sameNode (snd e) g) (connections st)
  | None => false
  end.

End Compositor.

(** ** The capture pipeline: [downloadProcessedAudio] and the recording effect *)

Module Capture.
Import Text Catalog Activation Browser Compositor.

Inductive RecorderState := Inactive | RecordingNow.

(** A [MediaRecorder] with what its [onstop] closure captured: the file
    name it will give to the artifact. *)
Record MediaRecorder := mkRecorder {
  mimeType : string;
  state : RecorderState;
  onstopName : string
}.

Record Session := mkSession {
  engine : Engine;
  audioFile : option string;        (** [audioFile?.name] *)
  audioUrl : option string;
  isRecording : bool;
  currentTime : Q;                  (** [audioRef.current.currentTime] *)
  paused : bool;                    (** [audioRef.current.paused] *)
  mediaRecorderRef : option MediaRecorder;
  recordedChunksRef : list nat;     (** sizes of the chunks pushed *)
  (** the [destination] of the run of the recording effect whose cleanup
      is still to come *)
  tap : option AudioNode;
  (** file names handed to the browser for saving, oldest first *)
  downloads : list string
}.

Definition withEngine (e : Engine) (s : Session) : Session :=
  mkSession e (audioFile s) (audioUrl s) (isRecording s) (currentTime s)
    (paused s) (mediaRecorderRef s) (recordedChunksRef s) (tap s) (downloads s).

Definition withIsRecording (b : bool) (s : Session) : Session :=
  mkSession (engine s) (audioFile s) (audioUrl s) b (currentTime s)
    (paused s) (mediaRecorderRef s) (recordedChunksRef s) (tap s) (downloads s).



Definition withRecorder (r : option MediaRecorder) (s : Session) : Session :=
  mkSession (engine s) (audioFile s) (audioUrl s) (isRecording s) (currentTime s)
    (paused s) r (recordedChunksRef s) (tap s) (downloads s).

Definition withChunks (c : list nat) (s : Session) : Session :=
  mkSession (engine s) (audioFile s) (audioUrl s) (isRecording s) (currentTime s)
    (paused s) (mediaRecorderRef s) c (tap s) (downloads s).

Definition withTap (t : option AudioNode) (s : Session) : Session :=
  mkSession (engine s) (audioFile s) (audioUrl s) (isRecording s) (currentTime s)
    (paused s) (mediaRecorderRef s) (recordedChunksRef s) t (downloads s).

Definition withDownloads (d : list string) (s : Session) : Session :=
  mkSession (engine s) (audioFile s) (audioUrl s) (isRecording s) (currentTime s)
    (paused s) (mediaRecorderRef s) (recordedChunksRef s) (tap s) d.


(** *** The file name built in [mediaRecorder.onstop] *)

(** [audioFile?.name?.split(".")[0] || "audio"] *)
Definition originalName (file : option string) : string :=
  match file with
  | Some fileName =>
      let first := List.hd EmptyString (split "." fileName) in
      if truthy first then first else "audio"%string
  | None => "audio"%string
  end.

(** [effect.name.toLowerCase().replace(/\s+/g, "-")] joined by ["-"], or
    ["original"] when no effect is active. *)
Definition effectNames (active : list AudioEffect) : string :=
  match active with
  | [] => "original"%string
  | _ => join "-" (List.map (fun e => replaceWhitespace (toLowerCase (name e))) active)
  end.

(** [`${originalName}-${effectNames}.mp3`] *)
Definition filename (file : option string) (active : list AudioEffect) : string :=
  (originalName file ++ "-" ++ effectNames active ++ ".mp3")%string.

(** *** The recording effect *)

(** [mediaRecorder.ondataavailable] *)
Definition ondataavailable (size : nat) (s : Session) : Session :=
  if (0 <? size)%nat then withChunks (recordedChunksRef s ++ [size]) s else s.

(** [mediaRecorderRef.current.stop()] on a recorder that is recording,
    followed by its [onstop] handler up to [setIsRecording(false)]. *)
Definition stopRecorder (s : Session) : Session :=
  match mediaRecorderRef s with
  | Some r =>
      match state r with
      | RecordingNow =>
          let s1 := withRecorder (Some (mkRecorder (mimeType r) Inactive (onstopName r))) s in
          withChunks [] (withDownloads (downloads s1 ++ [onstopName r]) s1)
      | Inactive => s
      end
  | None => s
  end.

(** The cleanup returned by the effect: the tap goes, a recorder that is
    still recording is stopped. *)
Definition cleanup (s : Session) : Session :=
  match tap s with
  | Some destination =>
      let s1 :=
        match gainNodeRef (engine s) with
        | Some g => withEngine (disconnectFrom g destination (engine s)) s
        | None => s
        end in
      stopRecorder (withTap None s1)
  | None => s
  end.

(** The body of the effect "Handle recording for download". When the
    recorder cannot be constructed the [catch] clause sets [isRecording]
    to false; that run returns no cleanup, and the effect run caused by
    the new value returns at once. *)
Definition recordingEffect (h : Host) (s : Session) : Session :=
  match isRecording s, audioContextRef (engine s), gainNodeRef (engine s) with
  | true, Some _, Some g =>
      let (destination, e1) := createNode StreamDestination (engine s) in
      let e2 := connect g destination e1 in
      if recorderRaises h then withIsRecording false (withEngine e2 s)
      else
        let mime := if mp3Supported h then "audio/mp3"%string else EmptyString in
        let name :=
          filename (audioFile s) (activeEffects (activeEffectIds (engine s))) in
        withTap (Some destination)
          (withChunks []
             (withRecorder (Some (mkRecorder mime RecordingNow name))
                (withEngine e2 s)))
  | _, _, _ => s
  end.

(** [setIsRecording(v)] and the effect run it causes: setting the current
    value again causes none. Runs of the recording effect caused by other
    state updates (its dependency [activeEffects] is a new array at every
    render) are not part of the embedding. *)
Definition setIsRecording (h : Host) (v : bool) (s : Session) : Session :=
  if Bool.eqb v (isRecording s) then s
  else recordingEffect h (cleanup (withIsRecording v s)).

(** [handleRecordingEnd]: the track ended or the 30 s timer fired. *)
Definition handleRecordingEnd (h : Host) (s : Session) : Session :=
  match mediaRecorderRef s with
  | Some r =>
      match state r with
      | RecordingNow => setIsRecording h false (stopRecorder s)
      | Inactive => s
      end
  | None => s
  end.



(** The session once the file [fileName] is loaded from [url] and the
    engine is initialised: nothing is recorded and the player is paused at
    the start. *)
Definition opened (fileName url : string) : Session :=
  mkSession settled (Some fileName) (Some url) false 0%Q true None [] None [].

(** The substring of [s] before its first [c] (all of [s] without one). *)
Fixpoint beforeFirst (c : ascii) (s : string) : string :=
  match s with
  | EmptyString => EmptyString
  | String d s' => if Ascii.eqb d c then EmptyString else String d (beforeFirst c s')
  end.


End Capture.

(** ** Vocabulary of the statements *)

Module Observe.
Import Catalog Activation Browser RandomFX Compositor.

(** The specification's [sorted(S)]: the ids of [S] in ascending order, each
    once. *)
Fixpoint insertId (i : Z) (l : list Z) : list Z :=
  match l with
  | [] => [i]
  | j :: l' =>
      if i <? j then i :: l
      else if i =? j then l
      else j :: insertId i l'
  end.

Definition sortedIds (ids : list Z) : list Z :=
  List.fold_right insertId [] ids.

Definition ascending (l : list Z) : Prop := StronglySorted Z.lt l.

Definition isKind (k : NodeKind) (n : AudioNode) : bool :=
  match k, kind n with
  | ContextDestination, ContextDestination => true
  | MediaElementSource, MediaElementSource => true
  | MasterGain, MasterGain => true
  | StageNode a, StageNode b => a =? b
  | StreamDestination, StreamDestination => true
  | _, _ => false
  end.

(** The guard of the rebuild effect lets it run. *)
Definition ready (st : Engine) : bool :=
  match audioContextInitialized st, audioContextRef st,
        sourceNodeRef st, gainNodeRef st with
  | true, Some _, Some _, Some _ => true
  | _, _, _, _ => false
  end.

(** States the component can be in once a file is loaded: the source and
    master gain nodes exist and are distinct, every node mentioned was
    created by the context, and whatever feeds the master gain node is the
    source node or a registered effect node. *)
Definition wellFormed (st : Engine) : bool :=
  match audioContextInitialized st, audioContextRef st,
        sourceNodeRef st, gainNodeRef st with
  | true, Some _, Some s, Some g =>
      isKind MediaElementSource s && isKind MasterGain g
      && (serial s <? created st)%nat && (serial g <? created st)%nat
      && negb (sameNode s g)
      && List.forallb
           (fun e => (serial (fst e) <? created st)%nat
                     && (serial (snd e) <? created st)%nat)
           (connections st)
      && List.forallb (fun kv => (serial (snd kv) <? created st)%nat)
           (effectNodesRef st)
      && List.forallb
           (fun e => negb (sameNode (snd e) g)
                     || sameNode (fst e) s
                     || List.existsb (fun kv => sameNode (fst e) (snd kv))
                          (effectNodesRef st))
           (connections st)
  | _, _, _, _ => false
  end.

(** [wellFormed] spelled out, with the source and master gain nodes named. *)
Definition WellFormed (st : Engine) (s g : AudioNode) : Prop :=
  audioContextInitialized st = true /\
  audioContextRef st <> None /\
  sourceNodeRef st = Some s /\
  gainNodeRef st = Some g /\
  kind s = MediaElementSource /\
  kind g = MasterGain /\
  (serial s < created st)%nat /\
  (serial g < created st)%nat /\
  serial s <> serial g /\
  List.Forall
    (fun e => (serial (fst e) < created st)%nat /\
              (serial (snd e) < created st)%nat) (connections st) /\
  List.Forall (fun kv => (serial (snd kv) < created st)%nat) (effectNodesRef st) /\
  List.Forall
    (fun e => serial (snd e) = serial g ->
              serial (fst e) = serial s \/
              List.Exists (fun kv => serial (fst e) = serial (snd kv))
                (effectNodesRef st))
    (connections st).

(** The rate left by the writes of [es] in order, starting from [r]. *)
Definition lastRate (es : list AudioEffect) (r : Q) : Q :=
  List.fold_left
    (fun acc e => match rateWrite e with Some q => q | None => acc end) es r.

Definition isComposite (e : AudioEffect) : bool :=
  match body e with RandomThree => true | _ => false end.

(** What follows the current node on the signal path when [es] are applied
    to it and the last node is connected to the master gain node. An effect
    that never connects its input ends the path. *)
Fixpoint pathAfter (es : list AudioEffect) : list NodeKind :=
  match es with
  | [] => [MasterGain]
  | e :: es' =>
      match body e with
      | Passthrough => pathAfter es'
      | Subgraph true _ _ => StageNode (id e) :: pathAfter es'
      | Subgraph false _ _ => []
      | RandomThree => []
      end
  end.

(** What one [apply], a chain of them or the forEach may do to the engine
    when started on the node [src]: references and the activation list stay,
    nodes are only created, connections and running tasks are only added,
    and every new connection leads from [src] or a new node to a new
    node. *)
Definition growsFrom (src : AudioNode) (st st' : Engine) : Prop :=
  activeEffectIds st' = activeEffectIds st /\
  audioContextInitialized st' = audioContextInitialized st /\
  audioContextRef st' = audioContextRef st /\
  sourceNodeRef st' = sourceNodeRef st /\
  gainNodeRef st' = gainNodeRef st /\
  (created st <= created st')%nat /\
  (exists extra,
      connections st' = connections st ++ extra /\
      List.Forall
        (fun e => (fst e = src \/
                   (created st <= serial (fst e) < created st')%nat) /\
                  (created st <= serial (snd e) < created st')%nat) extra) /\
  (exists tasks, background st' = background st ++ tasks).

(** The node an [apply] returns: its argument or a node it created. *)
Definition returnedFrom (src : AudioNode) (st st' : Engine) (n : AudioNode) : Prop :=
  n = src \/
  ((created st <= serial n < created st')%nat /\ exists i, kind n = StageNode i).

(** The result of an [apply] that is not Random FX in a browser where its
    node factories work. *)
Definition stageStep (e : AudioEffect) (src : AudioNode) (st : Engine)
    : AudioNode * Engine :=
  let st1 := writeRate (rateWrite e) st in
  match body e with
  | Subgraph inputConnected rafLoops startedSources =>
      let out := mkNode (created st1) (StageNode (id e)) in
      let st3 := startTasks (id e) rafLoops startedSources
                   (withCreated (S (created st1)) st1) in
      (out, if inputConnected then connect src out st3 else st3)
  | _ => (src, st1)
  end.

(** What the outcome of an [apply], or of a chain of them, guarantees. *)
Definition applyPost (h : Host) (src : AudioNode) (st : Engine)
    (o : Outcome AudioNode) : Prop :=
  match o with
  | Returned n st' =>
      growsFrom src st st' /\ returnedFrom src st st' n /\
      effectNodesRef st' = effectNodesRef st
  | Threw c st' =>
      growsFrom src st st' /\ raises h c = true /\
      effectNodesRef st' = effectNodesRef st
  | Diverged => True
  end.

(** What the forEach guarantees, whether it completes or an [apply]
    throws. *)
Definition forEachPost (h : Host) (src : AudioNode) (st : Engine)
    (o : Outcome AudioNode) : Prop :=
  match o with
  | Returned n st' =>
      growsFrom src st st' /\ returnedFrom src st st' n /\
      (forall kv, In kv (effectNodesRef st') ->
                  In kv (effectNodesRef st) \/ returnedFrom src st st' (snd kv))
  | Threw c st' =>
      growsFrom src st st' /\ raises h c = true /\
      (forall kv, In kv (effectNodesRef st') ->
                  In kv (effectNodesRef st) \/ returnedFrom src st st' (snd kv))
  | Diverged => True
  end.

(** The first three statements of the rebuild: every registered effect node
    and the source node are disconnected, the registry is emptied. *)
Definition teardown (sourceNode : AudioNode) (st : Engine) : Engine :=
  disconnect sourceNode (withEffectNodes [] (disconnectAll st)).

End Observe.

(** * Properties *)

Import Text Catalog Activation Browser RandomFX Compositor Capture Observe.

(* The catalog is a fifty-entry literal: simplification leaves it folded. *)
Arguments availableEffects : simpl never.
Arguments activeEffects : simpl never.
Arguments availableEffectsCopy : simpl never.
Arguments selectedEffects : simpl never.
Arguments filename : simpl never.

(** ** Catalog and activation list *)

Lemma includes_In (ids : list Z) (i : Z) : includes ids i = true <-> In i ids.
Proof.
  unfold includes. rewrite existsb_exists. split.
  - intros (x & Hx & E). apply Z.eqb_eq in E. now subst.
  - intros H. exists i. split; [assumption | apply Z.eqb_refl].
Qed.

Lemma includes_false (ids : list Z) (i : Z) : includes ids i = false <-> ~ In i ids.
Proof.
  rewrite <- includes_In. destruct (includes ids i); split; congruence.
Qed.

Lemma inCatalog_range (i : Z) : inCatalog i = true <-> 1 <= i <= 50.
Proof.
  unfold inCatalog. rewrite includes_In. split.
  - intros H. vm_compute in H.
    repeat (destruct H as [H | H]; [subst; lia | ]). contradiction.
  - intros H.
    assert (E : i = 1 + Z.of_nat (Z.to_nat (i - 1))) by lia.
    assert (B : (Z.to_nat (i - 1) < 50)%nat) by lia.
    revert E B. generalize (Z.to_nat (i - 1)). intros n E B. subst i.
    do 50 (destruct n as [| n]; [vm_compute; tauto | ]). lia.
Qed.

Lemma toggleEffect_includes_self (i : Z) (ids : list Z) :
  includes (toggleEffect i ids) i = negb (includes ids i).
Proof.
  unfold toggleEffect. destruct (includes ids i) eqn:E; cbn.
  - apply includes_false. intros H. apply filter_In in H as [_ H].
    rewrite Z.eqb_refl in H. discriminate.
  - apply includes_In. apply in_or_app. right. now left.
Qed.

Lemma toggleEffect_includes_other (i j : Z) (ids : list Z) :
  j <> i -> includes (toggleEffect i ids) j = includes ids j.
Proof.
  intros Hne. unfold toggleEffect.
  destruct (includes ids j) eqn:Ej.
  - apply includes_In in Ej. apply includes_In.
    destruct (includes ids i).
    + apply filter_In. split; [assumption | ].
      apply negb_true_iff, Z.eqb_neq. exact Hne.
    + apply in_or_app. now left.
  - apply includes_false in Ej. apply includes_false. intros H. apply Ej.
    destruct (includes ids i).
    + now apply filter_In in H as [H _].
    + apply in_app_or in H as [H | [H | []]]; [assumption | congruence].
Qed.

(** The active effects depend on the activation list only through
    membership of the catalog ids. *)
Lemma activeEffects_ext (ids ids' : list Z) :
  (forall e, In e availableEffects -> includes ids (id e) = includes ids' (id e)) ->
  activeEffects ids = activeEffects ids'.
Proof.
  intros H. unfold activeEffects. now apply filter_ext_in.
Qed.

Lemma activeEffects_In (e : AudioEffect) (ids : list Z) :
  In e (activeEffects ids) <->
  In e availableEffects /\ includes ids (id e) = true.
Proof. unfold activeEffects. apply filter_In. Qed.

Lemma activeEffect_in_catalog (e : AudioEffect) :
  In e availableEffects -> inCatalog (id e) = true.
Proof.
  intros H. unfold inCatalog, catalogIds. apply includes_In.
  now apply in_map.
Qed.

Lemma activeEffects_toggle_outside (i : Z) (ids : list Z) :
  inCatalog i = false -> activeEffects (toggleEffect i ids) = activeEffects ids.
Proof.
  intros Hout. apply activeEffects_ext. intros e He.
  apply toggleEffect_includes_other. intros E. rewrite <- E in Hout.
  rewrite (activeEffect_in_catalog e He) in Hout. discriminate.
Qed.

Lemma activeEffects_toggle_twice (i : Z) (ids : list Z) :
  activeEffects (toggleEffect i (toggleEffect i ids)) = activeEffects ids.
Proof.
  apply activeEffects_ext. intros e _.
  destruct (Z.eq_dec (id e) i) as [-> | Hne].
  - rewrite !toggleEffect_includes_self. apply negb_involutive.
  - now rewrite !toggleEffect_includes_other.
Qed.

(** ** Sorting *)

Lemma insertId_In (i x : Z) (l : list Z) :
  In x (insertId i l) <-> x = i \/ In x l.
Proof.
  induction l as [| j l IH]; cbn.
  - intuition.
  - destruct (i <? j) eqn:E1; [cbn; intuition | ].
    destruct (i =? j) eqn:E2.
    + apply Z.eqb_eq in E2. subst. cbn. intuition.
    + cbn. rewrite IH. intuition.
Qed.

Lemma sortedIds_In (x : Z) (ids : list Z) : In x (sortedIds ids) <-> In x ids.
Proof.
  induction ids as [| i ids IH]; cbn; [tauto | ].
  rewrite insertId_In, IH. intuition.
Qed.

Lemma insertId_ascending (i : Z) (l : list Z) :
  ascending l -> ascending (insertId i l).
Proof.
  unfold ascending. induction l as [| j l IH]; intros Hs; cbn.
  - repeat constructor.
  - apply StronglySorted_inv in Hs as [Hs Hall].
    destruct (i <? j) eqn:E1.
    + apply Z.ltb_lt in E1. constructor.
      * now constructor.
      * constructor; [assumption | ].
        eapply List.Forall_impl; [ | exact Hall]. cbn. intros; lia.
    + destruct (i =? j) eqn:E2; [now constructor | ].
      apply Z.ltb_ge in E1. apply Z.eqb_neq in E2.
      constructor; [now apply IH | ].
      apply List.Forall_forall. intros x Hx. apply insertId_In in Hx as [-> | Hx].
      * lia.
      * rewrite List.Forall_forall in Hall. now apply Hall.
Qed.

Lemma sortedIds_ascending (ids : list Z) : ascending (sortedIds ids).
Proof.
  induction ids as [| i ids IH]; cbn.
  - constructor.
  - now apply insertId_ascending.
Qed.

(** Two ascending lists with the same members are the same list. *)
Lemma ascending_unique (l1 l2 : list Z) :
  ascending l1 -> ascending l2 -> (forall x, In x l1 <-> In x l2) -> l1 = l2.
Proof.
  unfold ascending. revert l2.
  induction l1 as [| a l1 IH]; intros l2 H1 H2 Hmem.
  - destruct l2 as [| b l2]; [reflexivity | ].
    exfalso. apply (proj2 (Hmem b)). now left.
  - destruct l2 as [| b l2].
    + exfalso. apply (proj1 (Hmem a)). now left.
    + apply StronglySorted_inv in H1 as [H1 A1].
      apply StronglySorted_inv in H2 as [H2 A2].
      rewrite List.Forall_forall in A1, A2.
      assert (a = b) as ->.
      { destruct (proj1 (Hmem a) (or_introl eq_refl)) as [E | Hin];
          [now symmetry | ].
        destruct (proj2 (Hmem b) (or_introl eq_refl)) as [E | Hin'];
          [assumption | ].
        specialize (A1 _ Hin'). specialize (A2 _ Hin). lia. }
      f_equal. apply IH; try assumption.
      intros x. split; intros Hx.
      * destruct (proj1 (Hmem x) (or_intror Hx)) as [E | ]; [ | assumption].
        subst. specialize (A1 _ Hx). lia.
      * destruct (proj2 (Hmem x) (or_intror Hx)) as [E | ]; [ | assumption].
        subst. specialize (A2 _ Hx). lia.
Qed.

Lemma catalogIds_ascending : ascending catalogIds.
Proof.
  unfold ascending. apply Sorted_StronglySorted.
  - intros x y z. apply Z.lt_trans.
  - vm_compute catalogIds.
    repeat first [ apply Sorted_nil | apply Sorted_cons
                 | apply HdRel_nil | apply HdRel_cons; reflexivity ].
Qed.

Lemma filter_ascending (f : Z -> bool) (l : list Z) :
  ascending l -> ascending (List.filter f l).
Proof.
  unfold ascending. induction l as [| a l IH]; intros Hs; cbn.
  - constructor.
  - apply StronglySorted_inv in Hs as [Hs Hall].
    destruct (f a).
    + constructor; [now apply IH | ].
      rewrite List.Forall_forall in *. intros x Hx. apply Hall.
      now apply filter_In in Hx as [Hx _].
    + now apply IH.
Qed.

Lemma activeEffects_ids (ids : list Z) :
  List.map id (activeEffects ids) = List.filter (includes ids) catalogIds.
Proof.
  unfold activeEffects, catalogIds.
  induction availableEffects as [| e l IH]; cbn; [reflexivity | ].
  destruct (includes ids (id e)); cbn; now rewrite IH.
Qed.

(** The ids of the active effects are the catalog part of the activation
    list in ascending order, whatever the order of the list. *)
Lemma activeEffects_sorted (ids : list Z) :
  List.map id (activeEffects ids) = sortedIds (List.filter inCatalog ids).
Proof.
  rewrite activeEffects_ids. apply ascending_unique.
  - apply filter_ascending, catalogIds_ascending.
  - apply sortedIds_ascending.
  - intros x. rewrite sortedIds_In, !filter_In.
    unfold inCatalog. rewrite !includes_In. tauto.
Qed.

Lemma filter_all {A} (f : A -> bool) (l : list A) :
  List.Forall (fun x => f x = true) l -> List.filter f l = l.
Proof.
  induction 1 as [| x l Hx _ IH]; cbn; [reflexivity | ].
  now rewrite Hx, IH.
Qed.



(** ** File names *)

Lemma split_nonempty (c : ascii) (s : string) : split c s <> [].
Proof.
  destruct s as [| d s]; cbn; [discriminate | ].
  destruct (Ascii.eqb d c); [discriminate | ].
  destruct (split c s); discriminate.
Qed.

Lemma hd_split (c : ascii) (s : string) :
  List.hd EmptyString (split c s) = beforeFirst c s.
Proof.
  induction s as [| d s IH]; cbn; [reflexivity | ].
  destruct (Ascii.eqb d c); [reflexivity | ].
  destruct (split c s) as [| h t] eqn:E.
  - now destruct (split_nonempty c s).
  - cbn in *. now rewrite IH.
Qed.

Lemma beforeFirst_no_sep (c : ascii) (s : string) :
  contains c (beforeFirst c s) = false.
Proof.
  induction s as [| d s IH]; cbn; [reflexivity | ].
  destruct (Ascii.eqb d c) eqn:E; cbn; [reflexivity | ].
  now rewrite E, IH.
Qed.

Lemma endsWith_append (a suffix : string) :
  endsWith suffix (a ++ suffix) = true.
Proof.
  induction a as [| c a IH]; cbn [append endsWith].
  - destruct suffix; cbn [endsWith]; now rewrite String.eqb_refl.
  - destruct (String.eqb (String c (a ++ suffix)) suffix); [reflexivity | exact IH].
Qed.

Lemma originalName_spec (fileName : string) :
  originalName (Some fileName) =
    if truthy (beforeFirst "." fileName) then beforeFirst "." fileName
    else "audio"%string.
Proof. unfold originalName. now rewrite hd_split. Qed.

Lemma string_app_assoc (a b c : string) :
  ((a ++ b) ++ c)%string = (a ++ (b ++ c))%string.
Proof. induction a as [| x a IH]; cbn; [reflexivity | now rewrite IH]. Qed.

Lemma filename_mp3 (file : option string) (active : list AudioEffect) :
  endsWith ".mp3" (filename file active) = true.
Proof.
  unfold filename.
  rewrite <- !string_app_assoc. apply endsWith_append.
Qed.

(** ** The shuffle *)

Lemma swap_length (i j : nat) (a : list AudioEffect) :
  length (swap i j a) = length a.
Proof.
  unfold swap. destruct (a !! i), (a !! j); try reflexivity.
  now rewrite !length_insert.
Qed.

Lemma swap_Forall (P : AudioEffect -> Prop) (i j : nat) (a : list AudioEffect) :
  Forall P a -> Forall P (swap i j a).
Proof.
  intros H. unfold swap.
  destruct (a !! i) as [x |] eqn:Ei; [ | assumption].
  destruct (a !! j) as [y |] eqn:Ej; [ | assumption].
  apply Forall_insert; [apply Forall_insert | ]; try assumption.
  - exact (Forall_lookup_1 P a j y H Ej).
  - exact (Forall_lookup_1 P a i x H Ei).
Qed.

Lemma shuffleFrom_length (rnd : nat -> Q) (i calls : nat) (a : list AudioEffect) :
  length (shuffleFrom rnd calls i a) = length a.
Proof.
  revert calls a. induction i as [| i IH]; intros calls a; cbn; [reflexivity | ].
  now rewrite IH, swap_length.
Qed.

Lemma shuffleFrom_Forall (P : AudioEffect -> Prop) (rnd : nat -> Q)
    (i calls : nat) (a : list AudioEffect) :
  Forall P a -> Forall P (shuffleFrom rnd calls i a).
Proof.
  revert calls a. induction i as [| i IH]; intros calls a H; cbn; [assumption | ].
  apply IH. now apply swap_Forall.
Qed.

(** With [Math.random()] in [0, 1) the index drawn for position [i] is one
    of [0 .. i]. *)
Lemma floorIndex_range (r : Q) (n : nat) :
  (0 <= r)%Q -> (r < 1)%Q -> (0 < n)%nat -> (floorIndex r n < n)%nat.
Proof.
  intros H0 H1 Hn. unfold floorIndex.
  assert (Hpos : (0 < inject_Z (Z.of_nat n))%Q).
  { change 0%Q with (inject_Z 0). rewrite <- Zlt_Qlt. lia. }
  assert (Hlt : (r * inject_Z (Z.of_nat n) < inject_Z (Z.of_nat n))%Q).
  { rewrite <- (Qmult_1_l (inject_Z (Z.of_nat n))) at 2.
    now apply Qmult_lt_compat_r. }
  assert (Hge : (0 <= r * inject_Z (Z.of_nat n))%Q).
  { apply Qmult_le_0_compat; [assumption | now apply Qlt_le_weak]. }
  assert (F1 : (Qfloor (r * inject_Z (Z.of_nat n)) < Z.of_nat n)%Z).
  { rewrite Zlt_Qlt.
    eapply Qle_lt_trans; [apply Qfloor_le | exact Hlt]. }
  assert (F0 : (0 <= Qfloor (r * inject_Z (Z.of_nat n)))%Z).
  { change 0%Z with (Qfloor (inject_Z 0)) at 1.
    apply Qfloor_resp_le. exact Hge. }
  lia.
Qed.

Lemma swap_Permutation (i j : nat) (a : list AudioEffect) : swap i j a ≡ₚ a.
Proof.
  unfold swap. destruct (a !! i) as [x |] eqn:Ei; [ | reflexivity].
  destruct (a !! j) as [y |] eqn:Ej; [ | reflexivity].
  now apply Permutation_insert_swap.
Qed.

Lemma shuffleFrom_Permutation (rnd : nat -> Q) (i calls : nat)
    (a : list AudioEffect) :
  shuffleFrom rnd calls i a ≡ₚ a.
Proof.
  revert calls a. induction i as [| i IH]; intros calls a; cbn; [reflexivity | ].
  rewrite IH. apply swap_Permutation.
Qed.

(** With [Math.random()] in [0, 1) both indices of every swap of the loop
    are inside the array. *)
Lemma swap_indices_in_range (rnd : nat -> Q) (calls i : nat)
    (a : list AudioEffect) :
  unitInterval rnd -> (i < length a)%nat ->
  is_Some (a !! i) /\ is_Some (a !! floorIndex (rnd calls) (i + 1)).
Proof.
  intros U Hi. destruct (U calls) as [U0 U1]. split.
  - now apply lookup_lt_is_Some.
  - apply lookup_lt_is_Some.
    pose proof (floorIndex_range (rnd calls) (i + 1) U0 U1 ltac:(lia)). lia.
Qed.

Lemma copy_unfold :
  availableEffectsCopy = List.filter (fun e => negb (id e =? 47)) availableEffects.
Proof. unfold availableEffectsCopy. reflexivity. Qed.

Lemma copy_excludes_self : Forall (fun e => id e <> 47) availableEffectsCopy.
Proof.
  apply List.Forall_forall. intros e He.
  rewrite copy_unfold in He. apply filter_In in He as [_ He].
  now apply negb_true_iff, Z.eqb_neq in He.
Qed.

Lemma copy_in_catalog : Forall (fun e => In e availableEffects) availableEffectsCopy.
Proof.
  apply List.Forall_forall. intros e He.
  rewrite copy_unfold in He. now apply filter_In in He as [He _].
Qed.

Lemma copy_length : length availableEffectsCopy = 49%nat.
Proof. reflexivity. Qed.

Lemma composite_is_47 (e : AudioEffect) :
  In e availableEffects -> body e = RandomThree -> id e = 47.
Proof.
  intros He. vm_compute in He.
  repeat (destruct He as [He | He]; [subst e; cbn; try discriminate; reflexivity | ]).
  contradiction.
Qed.

Lemma copy_not_composite :
  Forall (fun e => body e <> RandomThree) availableEffectsCopy.
Proof.
  apply List.Forall_forall. intros e He.
  rewrite copy_unfold in He. apply filter_In in He as [Hin He].
  apply negb_true_iff, Z.eqb_neq in He. intros Hb. apply He.
  now apply composite_is_47.
Qed.

Lemma copy_ids_distinct : NoDup (List.map id availableEffectsCopy).
Proof.
  apply NoDup_ListNoDup. apply (List.NoDup_map_inv (fun i => i)).
  rewrite List.map_id. vm_compute.
  repeat (constructor; [cbn; intuition discriminate | ]). constructor.
Qed.

Lemma selected_distinct (rnd : nat -> Q) (calls : nat) :
  NoDup (List.map id (selectedEffects rnd calls)).
Proof.
  unfold selectedEffects, shuffled.
  assert (P : List.map id (shuffleFrom rnd calls (length availableEffectsCopy - 1)
                             availableEffectsCopy)
              ≡ₚ List.map id availableEffectsCopy).
  { apply Permutation_map, shuffleFrom_Permutation. }
  pose proof copy_ids_distinct as N. rewrite <- P in N.
  rewrite <- List.firstn_map.
  eapply sublist_NoDup; [exact N | apply sublist_take].
Qed.

Lemma selected_not_composite (rnd : nat -> Q) (calls : nat) :
  Forall (fun e => body e <> RandomThree) (selectedEffects rnd calls).
Proof.
  unfold selectedEffects, shuffled. apply Forall_take.
  apply shuffleFrom_Forall, copy_not_composite.
Qed.

(** ** Random FX needs one level of nesting only *)

Lemma applyEffect_simple (h : Host) (f f' : nat) (e : AudioEffect)
    (src : AudioNode) (st : Engine) :
  body e <> RandomThree ->
  applyEffect h f e src st = applyEffect h f' e src st.
Proof.
  intros Hb. destruct f, f'; cbn [applyEffect];
    destruct (body e); try reflexivity; congruence.
Qed.

Lemma chain_ext (step1 step2 : AudioEffect -> AudioNode -> Engine -> Outcome AudioNode)
    (es : list AudioEffect) :
  List.Forall (fun e => forall src st, step1 e src st = step2 e src st) es ->
  forall src st, chain step1 es src st = chain step2 es src st.
Proof.
  induction 1 as [| e es He _ IH]; intros src st; cbn; [reflexivity | ].
  rewrite He. destruct (step2 e src st); auto.
Qed.

Lemma applyEffect_S (h : Host) (f : nat) (e : AudioEffect)
    (src : AudioNode) (st : Engine) :
  applyEffect h (S f) e src st =
    match body e with
    | Passthrough => Returned src (writeRate (rateWrite e) st)
    | Subgraph inputConnected rafLoops startedSources =>
        if raises h (id e) then Threw (id e) (writeRate (rateWrite e) st)
        else
          let (out, st2) :=
            createNode (StageNode (id e)) (writeRate (rateWrite e) st) in
          let st3 := startTasks (id e) rafLoops startedSources st2 in
          Returned out (if inputConnected then connect src out st3 else st3)
    | RandomThree =>
        chain (applyEffect h f)
          (selectedEffects (random h) (randomCalls (writeRate (rateWrite e) st)))
          src
          (withRandomCalls
             (randomCalls (writeRate (rateWrite e) st)
              + (length availableEffectsCopy - 1))
             (writeRate (rateWrite e) st))
    end.
Proof. reflexivity. Qed.

Lemma applyEffect_fuel (h : Host) (f : nat) (e : AudioEffect)
    (src : AudioNode) (st : Engine) :
  applyEffect h (S f) e src st = applyEffect h 1 e src st.
Proof.
  rewrite !applyEffect_S. destruct (body e); try reflexivity.
  apply chain_ext.
  eapply List.Forall_impl; [ | apply selected_not_composite].
  intros a Ha src' st'. now apply applyEffect_simple.
Qed.

Lemma applyActive_fuel (h : Host) (f : nat) (es : list AudioEffect)
    (src : AudioNode) (st : Engine) :
  applyActive h (S f) es src st = applyActive h 1 es src st.
Proof.
  revert src st. induction es as [| e es IH]; intros src st; [reflexivity | ].
  cbn [applyActive]. rewrite applyEffect_fuel.
  destruct (applyEffect h 1 e src st); auto.
Qed.

Lemma rebuild_fuel (h : Host) (f : nat) (st : Engine) :
  rebuild h (S f) st = rebuild h 1 st.
Proof.
  unfold rebuild.
  destruct (audioContextInitialized st), (audioContextRef st),
    (sourceNodeRef st), (gainNodeRef st); try reflexivity.
  now rewrite applyActive_fuel.
Qed.

(** ** What an [apply] can do to the engine *)

Lemma growsFrom_refl (src : AudioNode) (st : Engine) : growsFrom src st st.
Proof.
  unfold growsFrom. repeat split; try reflexivity.
  - exists []. split; [now rewrite app_nil_r | constructor].
  - exists []. now rewrite app_nil_r.
Qed.

Lemma growsFrom_trans (src n : AudioNode) (a b c : Engine) :
  growsFrom src a b -> returnedFrom src a b n -> growsFrom n b c ->
  growsFrom src a c.
Proof.
  intros (A1 & A2 & A3 & A4 & A5 & A6 & (x1 & A7 & A8) & (t1 & A9)) Hn
         (B1 & B2 & B3 & B4 & B5 & B6 & (x2 & B7 & B8) & (t2 & B9)).
  unfold growsFrom. repeat split; try congruence; try lia.
  - exists (x1 ++ x2). split.
    + rewrite B7, A7. now rewrite app_assoc.
    + apply List.Forall_app. split.
      * eapply List.Forall_impl; [ | exact A8]. cbn.
        intros e [[E | E] F]; (split; [ (now left) || (right; lia) | lia ]).
      * eapply List.Forall_impl; [ | exact B8]. cbn.
        intros e [[E | E] F]; (split; [ | lia ]).
        -- destruct Hn as [-> | [Hn _]]; [now left | right].
           rewrite E. lia.
        -- right. lia.
  - exists (t1 ++ t2). rewrite B9, A9. now rewrite app_assoc.
Qed.

Lemma returnedFrom_trans (src n m : AudioNode) (a b c : Engine) :
  (created a <= created b)%nat -> (created b <= created c)%nat ->
  returnedFrom src a b n -> returnedFrom n b c m -> returnedFrom src a c m.
Proof.
  intros Hab Hbc [-> | [Hn Kn]] [-> | [Hm Km]].
  - now left.
  - right. split; [lia | assumption].
  - right. split; [lia | assumption].
  - right. split; [lia | assumption].
Qed.

Lemma writeRate_frame (r : option Q) (st : Engine) :
  activeEffectIds (writeRate r st) = activeEffectIds st /\
  audioContextInitialized (writeRate r st) = audioContextInitialized st /\
  audioContextRef (writeRate r st) = audioContextRef st /\
  sourceNodeRef (writeRate r st) = sourceNodeRef st /\
  gainNodeRef (writeRate r st) = gainNodeRef st /\
  effectNodesRef (writeRate r st) = effectNodesRef st /\
  connections (writeRate r st) = connections st /\
  created (writeRate r st) = created st /\
  background (writeRate r st) = background st /\
  randomCalls (writeRate r st) = randomCalls st.
Proof. destruct r; cbn; repeat split; reflexivity. Qed.

Lemma connect_cases (a b : AudioNode) (st : Engine) :
  connect a b st = st \/
  connect a b st = withConnections (connections st ++ [(a, b)]) st.
Proof. unfold connect. destruct (connected a b (connections st)); auto. Qed.

Lemma connect_frame (a b : AudioNode) (st : Engine) :
  activeEffectIds (connect a b st) = activeEffectIds st /\
  audioContextInitialized (connect a b st) = audioContextInitialized st /\
  audioContextRef (connect a b st) = audioContextRef st /\
  sourceNodeRef (connect a b st) = sourceNodeRef st /\
  gainNodeRef (connect a b st) = gainNodeRef st /\
  effectNodesRef (connect a b st) = effectNodesRef st /\
  created (connect a b st) = created st /\
  background (connect a b st) = background st.
Proof.
  destruct (connect_cases a b st) as [-> | ->]; repeat split; reflexivity.
Qed.

Lemma connect_playbackRate (a b : AudioNode) (st : Engine) :
  playbackRate (connect a b st) = playbackRate st.
Proof. destruct (connect_cases a b st) as [-> | ->]; reflexivity. Qed.


Lemma applyEffect_stageStep (h : Host) (f : nat) (e : AudioEffect)
    (src : AudioNode) (st : Engine) :
  body e <> RandomThree -> raises h (id e) = false ->
  applyEffect h f e src st =
    Returned (fst (stageStep e src st)) (snd (stageStep e src st)).
Proof.
  intros Hb Hr. unfold stageStep.
  destruct f; cbn [applyEffect]; destruct (body e); try congruence;
    try reflexivity; rewrite Hr; reflexivity.
Qed.

Lemma simple_outcome (h : Host) (f : nat) (e : AudioEffect)
    (src : AudioNode) (st : Engine) :
  body e <> RandomThree ->
  match applyEffect h f e src st with
  | Returned n st' => growsFrom src st st' /\ returnedFrom src st st' n
                      /\ effectNodesRef st' = effectNodesRef st
  | Threw c st' => growsFrom src st st' /\ raises h c = true
                   /\ effectNodesRef st' = effectNodesRef st
  | Diverged => False
  end.
Proof.
  intros Hb.
  destruct (writeRate_frame (rateWrite e) st)
    as (W1 & W2 & W3 & W4 & W5 & W6 & W7 & W8 & W9 & W10).
  assert (G0 : growsFrom src st (writeRate (rateWrite e) st)).
  { unfold growsFrom. rewrite W1, W2, W3, W4, W5, W7, W8, W9.
    repeat split; try reflexivity.
    - exists []. split; [now rewrite app_nil_r | constructor].
    - exists []. now rewrite app_nil_r. }
  rewrite (applyEffect_simple h f 1 e src st Hb), applyEffect_S.
  destruct (body e) as [| ic raf ss |] eqn:Eb; [ | | now destruct Hb].
  { split; [exact G0 | split; [now left | exact W6]]. }
  destruct (raises h (id e)) eqn:Er;
    [ split; [exact G0 | split; [exact Er | exact W6]] | ].
  cbn [createNode].
  set (st1 := writeRate (rateWrite e) st) in *.
  set (out := mkNode (created st1) (StageNode (id e))).
  set (st3 := startTasks (id e) raf ss (withCreated (S (created st1)) st1)).
  assert (N3 : effectNodesRef st3 = effectNodesRef st) by exact W6.
  assert (C3 : created st3 = S (created st))
    by (unfold st3; cbn; now rewrite W8).
  assert (K3 : connections st3 = connections st) by exact W7.
  assert (G3 : growsFrom src st st3).
  { unfold growsFrom. rewrite C3, K3.
    repeat split; try assumption; try lia.
    - exists []. split; [now rewrite app_nil_r | constructor].
    - unfold st3. cbn. rewrite W9. eexists. reflexivity. }
  assert (R : returnedFrom src st st3 out).
  { right. rewrite C3. unfold out. cbn. rewrite W8. split; [lia | eauto]. }
  assert (O : serial out = created st) by (unfold out; cbn; exact W8).
  clearbody st3 out.
  destruct ic; cbv beta iota;
    [ | split; [exact G3 | split; [exact R | exact N3]] ].
  destruct (connect_cases src out st3) as [-> | ->];
    [ split; [exact G3 | split; [exact R | exact N3]] | ].
  split; [ | split; [exact R | exact N3] ].
  destruct G3 as (A1 & A2 & A3 & A4 & A5 & A6 & (x1 & A7 & A8) & A9).
  unfold growsFrom. cbn. repeat split; try assumption.
  exists (x1 ++ [(src, out)]). split; [now rewrite A7, app_assoc | ].
  apply List.Forall_app. split; [exact A8 | ].
  constructor; [ | constructor ].
  cbn. split; [now left | ]. rewrite C3, O. lia.
Qed.

Lemma simple_post (h : Host) (f : nat) (e : AudioEffect)
    (src : AudioNode) (st : Engine) :
  body e <> RandomThree -> applyPost h src st (applyEffect h f e src st).
Proof.
  intros Hb. pose proof (simple_outcome h f e src st Hb) as H.
  unfold applyPost. destruct (applyEffect h f e src st); tauto.
Qed.

Lemma returnedFrom_mono (src n : AudioNode) (a b c : Engine) :
  returnedFrom src a b n -> (created b <= created c)%nat ->
  returnedFrom src a c n.
Proof.
  intros [-> | [Hn Kn]] Hbc; [now left | right].
  split; [lia | assumption].
Qed.

Lemma growsFrom_created (src : AudioNode) (a b : Engine) :
  growsFrom src a b -> (created a <= created b)%nat.
Proof. intros (_ & _ & _ & _ & _ & H & _). exact H. Qed.

Lemma chain_post (h : Host)
    (step : AudioEffect -> AudioNode -> Engine -> Outcome AudioNode)
    (es : list AudioEffect) :
  List.Forall (fun e => forall src st, applyPost h src st (step e src st)) es ->
  forall src st, applyPost h src st (chain step es src st).
Proof.
  induction 1 as [| e es He _ IH]; intros src st; cbn [chain].
  - cbn. split; [apply growsFrom_refl | split; [now left | reflexivity]].
  - specialize (He src st). destruct (step e src st) as [n st1 | c st1 |];
      cbn in He |- *; [ | exact He | exact I].
    destruct He as (G1 & R1 & N1).
    specialize (IH n st1).
    destruct (chain step es n st1) as [m st2 | c st2 |]; cbn in IH |- *;
      [ | | exact I].
    + destruct IH as (G2 & R2 & N2). split; [ | split].
      * eapply growsFrom_trans; eassumption.
      * eapply returnedFrom_trans; try eassumption;
          eapply growsFrom_created; eassumption.
      * congruence.
    + destruct IH as (G2 & R2 & N2). split; [ | split].
      * eapply growsFrom_trans; eassumption.
      * assumption.
      * congruence.
Qed.

Lemma applyEffect_post (h : Host) (f : nat) (e : AudioEffect)
    (src : AudioNode) (st : Engine) :
  applyPost h src st (applyEffect h f e src st).
Proof.
  revert e src st. induction f as [| f IH]; intros e src st.
  - destruct (body e) eqn:Eb;
      try (apply simple_post; congruence).
    cbn [applyEffect]. rewrite Eb. exact I.
  - destruct (body e) eqn:Eb;
      try (apply simple_post; congruence).
    rewrite applyEffect_S, Eb.
    destruct (writeRate_frame (rateWrite e) st)
      as (W1 & W2 & W3 & W4 & W5 & W6 & W7 & W8 & W9 & W10).
    set (st2 := withRandomCalls _ _).
    assert (G0 : growsFrom src st st2).
    { unfold growsFrom, st2. cbn. rewrite W1, W2, W3, W4, W5, W7, W8, W9.
      repeat split; try reflexivity.
      - exists []. split; [now rewrite app_nil_r | constructor].
      - exists []. now rewrite app_nil_r. }
    assert (N0 : effectNodesRef st2 = effectNodesRef st) by exact W6.
    assert (R0 : returnedFrom src st st2 src) by now left.
    pose proof (chain_post h (applyEffect h f)
                  (selectedEffects (random h)
                     (randomCalls (writeRate (rateWrite e) st)))) as C.
    specialize (C ltac:(apply List.Forall_forall; intros a _ s0 t0; apply IH)
                  src st2).
    destruct (chain _ _ src st2) as [m st3 | c st3 |]; cbn in C |- *;
      [ | | exact I].
    + destruct C as (G & R & N). split; [ | split].
      * eapply growsFrom_trans; eassumption.
      * eapply returnedFrom_trans; try eassumption;
          eapply growsFrom_created; eassumption.
      * congruence.
    + destruct C as (G & R & N). split; [ | split].
      * eapply growsFrom_trans; eassumption.
      * assumption.
      * congruence.
Qed.

(** ** The forEach over the active effects *)

Lemma mapSet_In (key : Z) (n : AudioNode) (m : list (Z * AudioNode)) :
  In (key, n) (mapSet key n m).
Proof.
  induction m as [| [k v] m IH]; cbn; [now left | ].
  destruct (k =? key) eqn:E.
  - apply Z.eqb_eq in E. subst. now left.
  - now right.
Qed.

Lemma mapSet_values (key : Z) (n : AudioNode) (m : list (Z * AudioNode))
    (kv : Z * AudioNode) :
  In kv (mapSet key n m) -> snd kv = n \/ In kv m.
Proof.
  induction m as [| [k v] m IH]; cbn.
  - intros [<- | []]. now left.
  - destruct (k =? key) eqn:E; cbn.
    + intros [<- | H]; [now left | right; now right].
    + intros [<- | H]; [right; now left | ].
      destruct (IH H) as [? | ?]; [now left | right; now right].
Qed.

Lemma mapSet_fresh (key : Z) (n : AudioNode) (m : list (Z * AudioNode)) :
  ~ In key (List.map fst m) -> mapSet key n m = m ++ [(key, n)].
Proof.
  induction m as [| [k v] m IH]; cbn; intros Hk; [reflexivity | ].
  destruct (k =? key) eqn:E.
  - apply Z.eqb_eq in E. tauto.
  - rewrite IH; [reflexivity | tauto].
Qed.

Lemma withEffectNodes_grows (src : AudioNode) (m : list (Z * AudioNode))
    (a b : Engine) :
  growsFrom src a b -> growsFrom src a (withEffectNodes m b).
Proof. unfold growsFrom. cbn. tauto. Qed.

Lemma applyActive_post (h : Host) (f : nat) (es : list AudioEffect)
    (src : AudioNode) (st : Engine) :
  forEachPost h src st (applyActive h f es src st).
Proof.
  revert src st. induction es as [| e es IH]; intros src st; cbn [applyActive].
  - cbn. split; [apply growsFrom_refl | ].
    split; [now left | tauto].
  - pose proof (applyEffect_post h f e src st) as P.
    destruct (applyEffect h f e src st) as [n st1 | c st1 |]; cbn in P |- *;
      [ | | exact I].
    + destruct P as (G1 & R1 & N1).
      set (st1' := withEffectNodes (mapSet (id e) n (effectNodesRef st1)) st1).
      assert (G1' : growsFrom src st st1') by now apply withEffectNodes_grows.
      assert (R1' : returnedFrom src st st1' n) by exact R1.
      specialize (IH n st1').
      destruct (applyActive h f es n st1') as [m st2 | c st2 |];
        cbn in IH |- *; [ | | exact I].
      * destruct IH as (G2 & R2 & V2).
        pose proof (growsFrom_created _ _ _ G1') as C1.
        pose proof (growsFrom_created _ _ _ G2) as C2.
        split; [eapply growsFrom_trans; eassumption | ].
        split; [eapply returnedFrom_trans; eassumption | ].
        intros kv Hkv. destruct (V2 kv Hkv) as [Hin | Hr].
        -- unfold st1' in Hin. cbn in Hin.
           apply mapSet_values in Hin as [E | Hin].
           ++ right. rewrite E. eapply returnedFrom_mono; eassumption.
           ++ left. congruence.
        -- right. eapply returnedFrom_trans; eassumption.
      * destruct IH as (G2 & R2 & V2).
        pose proof (growsFrom_created _ _ _ G1') as C1.
        pose proof (growsFrom_created _ _ _ G2) as C2.
        split; [eapply growsFrom_trans; eassumption | ].
        split; [assumption | ].
        intros kv Hkv. destruct (V2 kv Hkv) as [Hin | Hr].
        -- unfold st1' in Hin. cbn in Hin.
           apply mapSet_values in Hin as [E | Hin].
           ++ right. rewrite E. eapply returnedFrom_mono; eassumption.
           ++ left. congruence.
        -- right. eapply returnedFrom_trans; eassumption.
    + destruct P as (G1 & R1 & N1). split; [assumption | ].
      split; [assumption | ]. intros kv Hkv. left. congruence.
Qed.

Lemma applyActive_last (h : Host) (f : nat) (es : list AudioEffect)
    (src : AudioNode) (st : Engine) (n : AudioNode) (st' : Engine) :
  applyActive h f es src st = Returned n st' ->
  (es = [] /\ n = src) \/ exists k, In (k, n) (effectNodesRef st').
Proof.
  revert src st. induction es as [| e es IH]; intros src st H.
  - cbn in H. inversion H. now left.
  - cbn [applyActive] in H.
    destruct (applyEffect h f e src st) as [n1 st1 | |]; try discriminate.
    destruct es as [| e2 es2].
    + cbn in H. inversion H; subst. right. exists (id e). cbn. apply mapSet_In.
    + apply IH in H as [[E _] | H]; [discriminate | now right].
Qed.

Lemma applyActive_keys (h : Host) (f : nat) (es : list AudioEffect)
    (src : AudioNode) (st : Engine) (n : AudioNode) (st' : Engine) :
  applyActive h f es src st = Returned n st' ->
  List.NoDup (List.map fst (effectNodesRef st) ++ List.map id es) ->
  List.map fst (effectNodesRef st') =
    List.map fst (effectNodesRef st) ++ List.map id es.
Proof.
  revert src st. induction es as [| e es IH]; intros src st H Hnd.
  - cbn in H. inversion H. cbn. now rewrite app_nil_r.
  - cbn [applyActive] in H.
    pose proof (applyEffect_post h f e src st) as P.
    destruct (applyEffect h f e src st) as [n1 st1 | |]; try discriminate.
    cbn in P. destruct P as (_ & _ & N1).
    assert (Hfresh : ~ In (id e) (List.map fst (effectNodesRef st))).
    { intros Hin. cbn in Hnd. apply List.NoDup_remove_2 in Hnd.
      apply Hnd. apply in_or_app. now left. }
    apply IH in H.
    + rewrite H. cbn. rewrite N1, (mapSet_fresh _ _ _ Hfresh).
      rewrite List.map_app. cbn. now rewrite <- app_assoc.
    + cbn. rewrite N1, (mapSet_fresh _ _ _ Hfresh).
      rewrite List.map_app. cbn. rewrite <- app_assoc. exact Hnd.
Qed.

(** ** Teardown *)

Lemma disconnectAll_fold (nodes : list (Z * AudioNode)) (st : Engine) :
  List.fold_left (fun s kv => disconnect (snd kv) s) nodes st =
    withConnections
      (List.filter
         (fun e => negb (List.existsb (fun kv => sameNode (fst e) (snd kv)) nodes))
         (connections st)) st.
Proof.
  revert st. induction nodes as [| kv nodes IH]; intros st; cbn.
  - destruct st. unfold withConnections. cbn. f_equal.
    symmetry. apply filter_all. apply List.Forall_forall. reflexivity.
  - rewrite IH. unfold disconnect, withConnections. cbn. f_equal.
    induction (connections st) as [| e c IHc]; cbn; [reflexivity | ].
    destruct (sameNode (fst e) (snd kv)); cbn; [exact IHc | ].
    destruct (List.existsb _ nodes); cbn; [exact IHc | now rewrite IHc].
Qed.

Lemma teardown_connections (s : AudioNode) (st : Engine) :
  connections (teardown s st) =
    List.filter (fun e => negb (sameNode (fst e) s))
      (List.filter
         (fun e => negb (List.existsb (fun kv => sameNode (fst e) (snd kv))
                           (effectNodesRef st)))
         (connections st)).
Proof.
  unfold teardown, disconnectAll. rewrite disconnectAll_fold. reflexivity.
Qed.

Lemma teardown_frame (s : AudioNode) (st : Engine) :
  activeEffectIds (teardown s st) = activeEffectIds st /\
  audioContextInitialized (teardown s st) = audioContextInitialized st /\
  audioContextRef (teardown s st) = audioContextRef st /\
  sourceNodeRef (teardown s st) = sourceNodeRef st /\
  gainNodeRef (teardown s st) = gainNodeRef st /\
  effectNodesRef (teardown s st) = [] /\
  created (teardown s st) = created st /\
  playbackRate (teardown s st) = playbackRate st /\
  background (teardown s st) = background st /\
  randomCalls (teardown s st) = randomCalls st.
Proof.
  unfold teardown, disconnectAll. rewrite disconnectAll_fold. cbn.
  repeat split; reflexivity.
Qed.

(** ** The rebuild as a whole *)

Lemma ready_refs (st : Engine) :
  ready st = true ->
  exists c s g,
    audioContextInitialized st = true /\ audioContextRef st = Some c /\
    sourceNodeRef st = Some s /\ gainNodeRef st = Some g.
Proof.
  unfold ready.
  destruct (audioContextInitialized st), (audioContextRef st) as [c |],
    (sourceNodeRef st) as [s |], (gainNodeRef st) as [g |]; try discriminate.
  intros _. now exists c, s, g.
Qed.

Lemma rebuild_unfold (h : Host) (f : nat) (st : Engine) (s g : AudioNode) :
  ready st = true -> sourceNodeRef st = Some s -> gainNodeRef st = Some g ->
  rebuild h f st =
    match applyActive h f (activeEffects (activeEffectIds st)) s (teardown s st) with
    | Returned currentNode st3 =>
        Returned tt
          (if negb (speedEffectActive (activeEffects (activeEffectIds st)))
           then withPlaybackRate 1.0%Q (connect currentNode g st3)
           else connect currentNode g st3)
    | Threw c st3 => Threw c st3
    | Diverged => Diverged
    end.
Proof.
  intros Hr Hs Hg. apply ready_refs in Hr as (c & s' & g' & H1 & H2 & H3 & H4).
  unfold rebuild, teardown. rewrite H1, H2, Hs, Hg. reflexivity.
Qed.

Lemma rebuild_not_ready (h : Host) (f : nat) (st : Engine) :
  ready st = false -> rebuild h f st = Returned tt st.
Proof.
  unfold ready, rebuild.
  destruct (audioContextInitialized st), (audioContextRef st),
    (sourceNodeRef st), (gainNodeRef st); try discriminate; reflexivity.
Qed.

Lemma chain_not_diverged
    (step : AudioEffect -> AudioNode -> Engine -> Outcome AudioNode)
    (es : list AudioEffect) :
  List.Forall (fun e => forall src st, step e src st <> Diverged) es ->
  forall src st, chain step es src st <> Diverged.
Proof.
  induction 1 as [| e es He _ IH]; intros src st; cbn [chain]; [discriminate | ].
  specialize (He src st). destruct (step e src st); [apply IH | discriminate | congruence].
Qed.

Lemma simple_not_diverged (h : Host) (f : nat) (e : AudioEffect)
    (src : AudioNode) (st : Engine) :
  body e <> RandomThree -> applyEffect h f e src st <> Diverged.
Proof.
  intros Hb E. pose proof (simple_outcome h f e src st Hb) as H.
  now rewrite E in H.
Qed.

Lemma applyEffect_not_diverged (h : Host) (f : nat) (e : AudioEffect)
    (src : AudioNode) (st : Engine) :
  applyEffect h (S f) e src st <> Diverged.
Proof.
  destruct (body e) eqn:Eb; try (apply simple_not_diverged; congruence).
  rewrite applyEffect_S, Eb. apply chain_not_diverged.
  eapply List.Forall_impl; [ | apply selected_not_composite].
  intros a Ha src' st'. now apply simple_not_diverged.
Qed.

Lemma applyActive_not_diverged (h : Host) (f : nat) (es : list AudioEffect)
    (src : AudioNode) (st : Engine) :
  applyActive h (S f) es src st <> Diverged.
Proof.
  revert src st. induction es as [| e es IH]; intros src st; [discriminate | ].
  cbn [applyActive]. pose proof (applyEffect_not_diverged h f e src st) as H.
  destruct (applyEffect h (S f) e src st); [apply IH | discriminate | congruence].
Qed.

(** C9. Whatever [Math.random()] returns, the three effects that Random FX
    (id 47) selects and chains are three different effects of the catalog
    none of which has id 47; so its [apply] never enters itself: one level
    of nesting is all it needs. *)
Theorem random_fx_never_selects_itself (rnd : nat -> Q) (calls : nat) :
  length (selectedEffects rnd calls) = 3%nat /\
  Forall (fun e => id e <> 47) (selectedEffects rnd calls) /\
  Forall (fun e => In e availableEffects) (selectedEffects rnd calls) /\
  NoDup (List.map id (selectedEffects rnd calls)) /\
  forall (h : Host) (fuel : nat) (e : AudioEffect) (src : AudioNode) (st : Engine),
    id e = 47 -> applyEffect h (S fuel) e src st <> Diverged.
Proof.
  split; [ | split; [ | split; [ | split]]].
  - unfold selectedEffects, shuffled.
    rewrite length_take, shuffleFrom_length, copy_length. reflexivity.
  - unfold selectedEffects, shuffled.
    apply Forall_take. apply shuffleFrom_Forall, copy_excludes_self.
  - unfold selectedEffects, shuffled.
    apply Forall_take. apply shuffleFrom_Forall, copy_in_catalog.
  - apply selected_distinct.
  - intros h fuel e src st _. apply applyEffect_not_diverged.
Qed.

(** In a browser whose node factories work, the forEach completes. *)
Lemma applyActive_reliable (rnd : nat -> Q) (f : nat) (es : list AudioEffect)
    (src : AudioNode) (st : Engine) :
  exists n st', applyActive (reliable rnd) (S f) es src st = Returned n st'.
Proof.
  pose proof (applyActive_post (reliable rnd) (S f) es src st) as P.
  pose proof (applyActive_not_diverged (reliable rnd) f es src st) as D.
  destruct (applyActive (reliable rnd) (S f) es src st) as [n st' | c st' |].
  - now exists n, st'.
  - cbn in P. destruct P as (_ & P & _). discriminate.
  - congruence.
Qed.

Lemma rebuild_reliable (rnd : nat -> Q) (f : nat) (st : Engine) :
  exists st', rebuild (reliable rnd) (S f) st = Returned tt st'.
Proof.
  destruct (ready st) eqn:Hr.
  - destruct (ready_refs st Hr) as (c & s & g & H1 & H2 & H3 & H4).
    rewrite (rebuild_unfold _ _ _ s g Hr H3 H4).
    destruct (applyActive_reliable rnd f (activeEffects (activeEffectIds st))
                s (teardown s st)) as (n & st3 & E).
    rewrite E. eauto.
  - rewrite rebuild_not_ready by assumption. eauto.
Qed.

Lemma activeEffects_NoDup (ids : list Z) :
  List.NoDup (List.map id (activeEffects ids)).
Proof.
  rewrite activeEffects_sorted.
  pose proof (sortedIds_ascending (List.filter inCatalog ids)) as H.
  unfold ascending in H.
  induction H as [| a l _ IH Hall]; constructor; [ | exact IH].
  intros Hin. rewrite List.Forall_forall in Hall. specialize (Hall _ Hin). lia.
Qed.

Lemma applyActive_keys_empty (h : Host) (f : nat) (es : list AudioEffect)
    (src : AudioNode) (st : Engine) (n : AudioNode) (st' : Engine) :
  effectNodesRef st = [] -> List.NoDup (List.map id es) ->
  applyActive h f es src st = Returned n st' ->
  List.map fst (effectNodesRef st') = List.map id es.
Proof.
  intros Hn Hnd H. apply applyActive_keys in H.
  - rewrite H, Hn. reflexivity.
  - rewrite Hn. exact Hnd.
Qed.

(** The last statements of the rebuild, on the outcome of the forEach. *)
Lemma finish_frame (reset : bool) (n g : AudioNode) (st3 : Engine) :
  let st' := if reset then withPlaybackRate 1.0%Q (connect n g st3)
             else connect n g st3 in
  activeEffectIds st' = activeEffectIds st3 /\
  audioContextInitialized st' = audioContextInitialized st3 /\
  audioContextRef st' = audioContextRef st3 /\
  sourceNodeRef st' = sourceNodeRef st3 /\
  gainNodeRef st' = gainNodeRef st3 /\
  effectNodesRef st' = effectNodesRef st3 /\
  connections st' = connections (connect n g st3) /\
  created st' = created st3 /\
  background st' = background st3 /\
  playbackRate st' = if reset then 1.0%Q else playbackRate st3.
Proof.
  destruct (connect_frame n g st3) as (C1 & C2 & C3 & C4 & C5 & C6 & C7 & C8).
  destruct reset; cbn; rewrite ?connect_playbackRate; repeat split; assumption.
Qed.

Lemma rebuild_result (h : Host) (f : nat) (st st' : Engine) (s g : AudioNode) :
  ready st = true -> sourceNodeRef st = Some s -> gainNodeRef st = Some g ->
  rebuild h f st = Returned tt st' ->
  exists n st3,
    applyActive h f (activeEffects (activeEffectIds st)) s (teardown s st)
      = Returned n st3 /\
    activeEffectIds st' = activeEffectIds st3 /\
    audioContextInitialized st' = audioContextInitialized st3 /\
    audioContextRef st' = audioContextRef st3 /\
    sourceNodeRef st' = sourceNodeRef st3 /\
    gainNodeRef st' = gainNodeRef st3 /\
    effectNodesRef st' = effectNodesRef st3 /\
    connections st' = connections (connect n g st3) /\
    created st' = created st3 /\
    background st' = background st3 /\
    playbackRate st' =
      if negb (speedEffectActive (activeEffects (activeEffectIds st)))
      then 1.0%Q else playbackRate st3.
Proof.
  intros Hr Hs Hg H. rewrite (rebuild_unfold _ _ _ s g Hr Hs Hg) in H.
  destruct (applyActive h f _ s (teardown s st)) as [n st3 | |];
    try discriminate.
  exists n, st3. split; [reflexivity | ].
  injection H as <-. apply finish_frame.
Qed.

(** The registry left by a completed rebuild lists the active effects in
    catalog order. *)
Lemma rebuild_chainOrder (h : Host) (f : nat) (st st' : Engine) :
  ready st = true -> rebuild h f st = Returned tt st' ->
  chainOrder st' = List.map id (activeEffects (activeEffectIds st)).
Proof.
  intros Hr H.
  destruct (ready_refs st Hr) as (c & s & g & H1 & H2 & H3 & H4).
  destruct (rebuild_result _ _ _ _ s g Hr H3 H4 H)
    as (n & st3 & E & _ & _ & _ & _ & _ & N & _).
  unfold chainOrder. rewrite N.
  apply (applyActive_keys_empty _ _ _ _ _ _ _ (proj1 (proj2 (proj2 (proj2 (proj2
           (proj2 (teardown_frame s st))))))) (activeEffects_NoDup _) E).
Qed.

Lemma rebuild_ids (h : Host) (f : nat) (st st' : Engine) :
  rebuild h f st = Returned tt st' -> activeEffectIds st' = activeEffectIds st.
Proof.
  intros H. destruct (ready st) eqn:Hr.
  - destruct (ready_refs st Hr) as (c & s & g & H1 & H2 & H3 & H4).
    destruct (rebuild_result _ _ _ _ s g Hr H3 H4 H) as (n & st3 & E & I & _).
    pose proof (applyActive_post h f (activeEffects (activeEffectIds st)) s
                  (teardown s st)) as P.
    rewrite E in P. destruct P as ((P & _) & _).
    destruct (teardown_frame s st) as (T & _). congruence.
  - rewrite rebuild_not_ready in H by assumption. now inversion H.
Qed.

Lemma click_unfold (h : Host) (f : nat) (i : Z) (st : Engine) :
  click h f i st = rebuild h f (withIds (toggleEffect i (activeEffectIds st)) st).
Proof. reflexivity. Qed.

Lemma withIds_ids (ids : list Z) (st : Engine) :
  activeEffectIds (withIds ids st) = ids.
Proof. reflexivity. Qed.

Lemma withIds_background (ids : list Z) (st : Engine) :
  background (withIds ids st) = background st.
Proof. reflexivity. Qed.

Lemma settled_rebuilt (rnd : nat -> Q) (fuel : nat) :
  rebuild (reliable rnd) (S fuel) loaded = Returned tt settled.
Proof. reflexivity. Qed.





(** ** Playback rate *)

Lemma activeEffects_of_members (ids l : list Z) :
  (forall j, includes ids j = true <-> In j l) ->
  activeEffects ids = activeEffects l.
Proof.
  intros H. apply activeEffects_ext. intros e _.
  destruct (includes ids (id e)) eqn:E1, (includes l (id e)) eqn:E2;
    try reflexivity.
  - apply H in E1. apply includes_In in E1. congruence.
  - apply includes_In, H in E2. congruence.
Qed.

Lemma rebuild_rate_reset (h : Host) (f : nat) (st st' : Engine) :
  ready st = true -> rebuild h f st = Returned tt st' ->
  speedEffectActive (activeEffects (activeEffectIds st)) = false ->
  playbackRate st' = 1.0%Q.
Proof.
  intros Hr H Hs.
  destruct (ready_refs st Hr) as (c & s & g & H1 & H2 & H3 & H4).
  rewrite (rebuild_unfold _ _ _ s g Hr H3 H4), Hs in H.
  destruct (applyActive h f _ s (teardown s st)); try discriminate.
  inversion H. reflexivity.
Qed.

Lemma stageStep_rate (e : AudioEffect) (src : AudioNode) (st : Engine) :
  playbackRate (snd (stageStep e src st)) =
    match rateWrite e with Some q => q | None => playbackRate st end.
Proof.
  unfold stageStep. destruct (body e) as [| ic raf ss |]; cbn;
    try destruct ic; rewrite ?connect_playbackRate; cbn;
    destruct (rateWrite e); reflexivity.
Qed.

Lemma isComposite_false (e : AudioEffect) :
  isComposite e = false -> body e <> RandomThree.
Proof. unfold isComposite. destruct (body e); congruence. Qed.

Lemma applyActive_rate (rnd : nat -> Q) (f : nat) (es : list AudioEffect)
    (src : AudioNode) (st : Engine) (n : AudioNode) (st' : Engine) :
  List.Forall (fun e => isComposite e = false) es ->
  applyActive (reliable rnd) f es src st = Returned n st' ->
  playbackRate st' = lastRate es (playbackRate st).
Proof.
  intros Hes. revert src st.
  induction Hes as [| e es He _ IH]; intros src st H.
  - cbn in H. now inversion H.
  - cbn [applyActive] in H.
    rewrite (applyEffect_stageStep (reliable rnd) f e _ _ (isComposite_false e He) eq_refl) in H.
    apply IH in H. rewrite H. cbn [lastRate List.fold_left].
    unfold lastRate. f_equal. cbn. apply stageStep_rate.
Qed.

Lemma rebuild_rate_kept (rnd : nat -> Q) (f : nat) (st st' : Engine) :
  ready st = true -> rebuild (reliable rnd) f st = Returned tt st' ->
  speedEffectActive (activeEffects (activeEffectIds st)) = true ->
  List.Forall (fun e => isComposite e = false) (activeEffects (activeEffectIds st)) ->
  playbackRate st' =
    lastRate (activeEffects (activeEffectIds st)) (playbackRate st).
Proof.
  intros Hr H Hs Hc.
  destruct (ready_refs st Hr) as (c & s & g & H1 & H2 & H3 & H4).
  rewrite (rebuild_unfold _ _ _ s g Hr H3 H4), Hs in H.
  destruct (applyActive (reliable rnd) f _ s (teardown s st)) as [n st3 | |] eqn:E;
    try discriminate.
  inversion H. cbn. rewrite connect_playbackRate.
  rewrite (applyActive_rate _ _ _ _ _ _ _ Hc E).
  destruct (teardown_frame s st) as (_ & _ & _ & _ & _ & _ & _ & T & _).
  now rewrite T.
Qed.

(** C2, evaluated where it fails. With Chipmunk (27), Monster Voice (28) or
    Time Stretch (40) as the only active effect, the effect writes its rate
    during the forEach, and the reset that follows, whose name list lacks
    these three, puts the rate back to 1.0. *)
Theorem rate_reset_overrides_unlisted_effect (rnd : nat -> Q) (fuel : nat)
    (st : Engine) (i : Z) :
  ready st = true ->
  In i [27; 28; 40] ->
  (forall j, includes (activeEffectIds st) j = true <-> j = i) ->
  exists e r st',
    activeEffects (activeEffectIds st) = [e] /\ id e = i /\
    rateWrite e = Some r /\ ~ (r == 1.0)%Q /\
    rebuild (reliable rnd) (S fuel) st = Returned tt st' /\
    playbackRate st' = 1.0%Q.
Proof.
  intros Hr Hi Hmem.
  destruct (rebuild_reliable rnd fuel st) as (st' & E).
  assert (A : activeEffects (activeEffectIds st) = activeEffects [i]).
  { apply activeEffects_of_members. intros j. rewrite Hmem. cbn. intuition. }
  assert (R : speedEffectActive (activeEffects (activeEffectIds st)) = false).
  { rewrite A. destruct Hi as [<- | [<- | [<- | []]]]; vm_compute; reflexivity. }
  pose proof (rebuild_rate_reset _ _ _ _ Hr E R) as P.
  destruct Hi as [<- | [<- | [<- | []]]].
  - exists (mkEffect 27 "Chipmunk" (Some 1.5%Q) (Subgraph true 0 0)), 1.5%Q, st'.
    rewrite A. repeat split; try assumption. discriminate.
  - exists (mkEffect 28 "Monster Voice" (Some 0.7%Q) (Subgraph true 0 0)), 0.7%Q, st'.
    rewrite A. repeat split; try assumption. discriminate.
  - exists (mkEffect 40 "Time Stretch" (Some 0.7%Q) Passthrough), 0.7%Q, st'.
    rewrite A. repeat split; try assumption. discriminate.
Qed.

Lemma rate_reset_overrides_unlisted_effect_witness :
  exists e r st',
    activeEffects [27] = [e] /\ id e = 27 /\
    rateWrite e = Some r /\ ~ (r == 1.0)%Q /\
    rebuild (reliable (fun _ => 0%Q)) 1 (withIds [27] loaded) = Returned tt st' /\
    playbackRate st' = 1.0%Q.
Proof.
  apply (rate_reset_overrides_unlisted_effect (fun _ => 0%Q) 0
           (withIds [27] loaded) 27).
  - reflexivity.
  - cbn. tauto.
  - intros j. cbn. rewrite orb_false_r, Z.eqb_eq. tauto.
Defined.

(** The same reset with two unlisted effects: when Chipmunk (27) and Monster
    Voice (28) are the active effects, the last write of the forEach is
    Monster Voice's 0.7, and the reset that follows puts the rate back to
    1.0. *)
Lemma rate_reset_overrides_two_unlisted (rnd : nat -> Q) (fuel : nat)
    (st : Engine) :
  ready st = true ->
  (forall j, includes (activeEffectIds st) j = true <-> j = 27 \/ j = 28) ->
  exists st',
    List.map id (List.filter rateAffecting (activeEffects (activeEffectIds st)))
      = [27; 28] /\
    lastRate (activeEffects (activeEffectIds st)) (playbackRate st) = 0.7%Q /\
    rebuild (reliable rnd) (S fuel) st = Returned tt st' /\
    playbackRate st' = 1.0%Q.
Proof.
  intros Hr Hmem.
  destruct (rebuild_reliable rnd fuel st) as (st' & E).
  assert (A : activeEffects (activeEffectIds st) = activeEffects [27; 28]).
  { apply activeEffects_of_members. intros j. rewrite Hmem. cbn. intuition. }
  assert (R : speedEffectActive (activeEffects (activeEffectIds st)) = false).
  { rewrite A. vm_compute. reflexivity. }
  exists st'. rewrite A. repeat split.
  - exact E.
  - exact (rebuild_rate_reset _ _ _ _ Hr E R).
Qed.


(** ** Well-formed engines *)

Lemma sameNode_true (a b : AudioNode) :
  sameNode a b = true <-> serial a = serial b.
Proof. unfold sameNode. apply Nat.eqb_eq. Qed.

Lemma sameNode_false (a b : AudioNode) :
  sameNode a b = false <-> serial a <> serial b.
Proof. unfold sameNode. apply Nat.eqb_neq. Qed.

Lemma isKind_source (n : AudioNode) :
  isKind MediaElementSource n = true <-> kind n = MediaElementSource.
Proof. unfold isKind. destruct (kind n); split; congruence. Qed.

Lemma isKind_gain (n : AudioNode) :
  isKind MasterGain n = true <-> kind n = MasterGain.
Proof. unfold isKind. destruct (kind n); split; congruence. Qed.

Lemma forallb_Forall {A} (f : A -> bool) (P : A -> Prop) (l : list A) :
  (forall x, f x = true <-> P x) ->
  List.forallb f l = true <-> List.Forall P l.
Proof.
  intros H. rewrite List.forallb_forall, List.Forall_forall.
  split; intros F x Hx; apply H, F, Hx.
Qed.

Lemma existsb_Exists {A} (f : A -> bool) (P : A -> Prop) (l : list A) :
  (forall x, f x = true <-> P x) ->
  List.existsb f l = true <-> List.Exists P l.
Proof.
  intros H. rewrite List.existsb_exists, List.Exists_exists.
  split; intros (x & Hx & Fx); exists x; (split; [exact Hx | now apply H]).
Qed.

Lemma wellFormed_iff (st : Engine) :
  wellFormed st = true <-> exists s g, WellFormed st s g.
Proof.
  unfold wellFormed, WellFormed. split.
  - destruct (audioContextInitialized st); [ | discriminate].
    destruct (audioContextRef st) as [c |]; [ | discriminate].
    destruct (sourceNodeRef st) as [s |]; [ | discriminate].
    destruct (gainNodeRef st) as [g |]; [ | discriminate].
    rewrite !andb_true_iff.
    intros (((((((K1 & K2) & B1) & B2) & D) & F1) & F2) & F3).
    exists s, g. repeat split; try reflexivity; try discriminate.
    + now apply isKind_source.
    + now apply isKind_gain.
    + now apply Nat.ltb_lt.
    + now apply Nat.ltb_lt.
    + now apply sameNode_false, negb_true_iff.
    + revert F1. apply forallb_Forall. intros e.
      now rewrite andb_true_iff, !Nat.ltb_lt.
    + revert F2. apply forallb_Forall. intros e. now rewrite Nat.ltb_lt.
    + revert F3. apply forallb_Forall. intros e.
      rewrite !orb_true_iff, negb_true_iff, sameNode_false, sameNode_true.
      rewrite (existsb_Exists _ (fun kv => serial (fst e) = serial (snd kv)))
        by (intros kv; apply sameNode_true).
      destruct (Nat.eq_dec (serial (snd e)) (serial g)); tauto.
  - intros (s & g & H1 & H2 & H3 & H4 & K1 & K2 & B1 & B2 & D & F1 & F2 & F3).
    rewrite H1, H3, H4. destruct (audioContextRef st); [ | congruence].
    rewrite !andb_true_iff. repeat split.
    + now apply isKind_source.
    + now apply isKind_gain.
    + now apply Nat.ltb_lt.
    + now apply Nat.ltb_lt.
    + now apply negb_true_iff, sameNode_false.
    + revert F1. apply forallb_Forall. intros e.
      now rewrite andb_true_iff, !Nat.ltb_lt.
    + revert F2. apply forallb_Forall. intros e. now rewrite Nat.ltb_lt.
    + revert F3. apply forallb_Forall. intros e.
      rewrite !orb_true_iff, negb_true_iff, sameNode_false, sameNode_true.
      rewrite (existsb_Exists _ (fun kv => serial (fst e) = serial (snd kv)))
        by (intros kv; apply sameNode_true).
      destruct (Nat.eq_dec (serial (snd e)) (serial g)); tauto.
Qed.

Lemma wellFormed_ready (st : Engine) : wellFormed st = true -> ready st = true.
Proof.
  unfold wellFormed, ready.
  destruct (audioContextInitialized st), (audioContextRef st),
    (sourceNodeRef st), (gainNodeRef st); congruence.
Qed.

Lemma loaded_wellFormed : wellFormed loaded = true.
Proof. reflexivity. Qed.

(** ** Following the connections *)

Lemma successor_app_none (c c' : list (AudioNode * AudioNode)) (a : AudioNode) :
  List.Forall (fun e => sameNode (fst e) a = false) c ->
  successor (c ++ c') a = successor c' a.
Proof.
  unfold successor. induction 1 as [| e c He _ IH]; cbn; [reflexivity | ].
  now rewrite He.
Qed.

Lemma successor_none (c : list (AudioNode * AudioNode)) (a : AudioNode) :
  List.Forall (fun e => sameNode (fst e) a = false) c -> successor c a = None.
Proof.
  intros H. rewrite <- (app_nil_r c). now rewrite successor_app_none.
Qed.

Lemma successor_head (a b : AudioNode) (c : list (AudioNode * AudioNode)) :
  successor ((a, b) :: c) a = Some b.
Proof.
  unfold successor. cbn. unfold sameNode. now rewrite Nat.eqb_refl.
Qed.

Lemma walk_gain (fuel : nat) (c : list (AudioNode * AudioNode)) (g : AudioNode) :
  kind g = MasterGain -> walk fuel c g = [g].
Proof. intros Hk. destruct fuel; cbn; [reflexivity | now rewrite Hk]. Qed.

Lemma walk_step (fuel : nat) (c : list (AudioNode * AudioNode)) (a : AudioNode) :
  kind a <> MasterGain ->
  walk (S fuel) c a =
    match successor c a with
    | Some b => a :: walk fuel c b
    | None => [a]
    end.
Proof. intros Hk. cbn. destruct (kind a); congruence. Qed.

Lemma connect_fresh (a b : AudioNode) (st : Engine) :
  List.Forall (fun e => sameNode (fst e) a = false) (connections st) ->
  connect a b st = withConnections (connections st ++ [(a, b)]) st.
Proof.
  intros H. unfold connect.
  assert (E : connected a b (connections st) = false).
  { unfold connected. induction H as [| e c He _ IH]; cbn; [reflexivity | ].
    now rewrite He. }
  now rewrite E.
Qed.

Lemma connect_prefix (a b : AudioNode) (st : Engine) :
  exists extra, connections (connect a b st) = connections st ++ extra /\
                (extra = [] \/ extra = [(a, b)]).
Proof.
  destruct (connect_cases a b st) as [-> | ->].
  - exists []. split; [now rewrite app_nil_r | now left].
  - exists [(a, b)]. split; [reflexivity | now right].
Qed.

Lemma stageStep_passthrough (e : AudioEffect) (src : AudioNode) (st : Engine) :
  body e = Passthrough ->
  stageStep e src st = (src, writeRate (rateWrite e) st).
Proof. intros Hb. unfold stageStep. now rewrite Hb. Qed.

Lemma stageStep_subgraph (e : AudioEffect) (src : AudioNode) (st : Engine)
    (ic : bool) (raf ss : nat) :
  body e = Subgraph ic raf ss ->
  stageStep e src st =
    (mkNode (created st) (StageNode (id e)),
     let st3 := startTasks (id e) raf ss
                  (withCreated (S (created st)) (writeRate (rateWrite e) st)) in
     if ic then connect src (mkNode (created st) (StageNode (id e))) st3 else st3).
Proof.
  intros Hb. unfold stageStep. rewrite Hb.
  destruct (writeRate_frame (rateWrite e) st)
    as (_ & _ & _ & _ & _ & _ & _ & W & _).
  now rewrite W.
Qed.

(** The walk from the current node over the connections left by the forEach
    and the final connection to the master gain node. *)
Lemma walk_after_forEach (rnd : nat -> Q) (f : nat) (g : AudioNode)
    (es : list AudioEffect) :
  List.Forall (fun e => isComposite e = false) es ->
  kind g = MasterGain ->
  forall (cur : AudioNode) (st : Engine) (n : AudioNode) (st3 : Engine),
    kind cur <> MasterGain ->
    (serial cur < created st)%nat ->
    List.Forall (fun e => (serial (fst e) < created st)%nat) (connections st) ->
    List.Forall (fun e => sameNode (fst e) cur = false) (connections st) ->
    applyActive (reliable rnd) f es cur st = Returned n st3 ->
    forall fuel, (length (pathAfter es) <= fuel)%nat ->
      List.map kind (walk fuel (connections (connect n g st3)) cur) =
        kind cur :: pathAfter es.
Proof.
  intros Hes Hg. induction Hes as [| e es He _ IH];
    intros cur st n st3 Hk Hs Hold Hcur H fuel Hfuel.
  - cbn in H. inversion H; subst n st3. clear H.
    rewrite (connect_fresh _ _ _ Hcur). cbn [connections withConnections].
    cbn in Hfuel. destruct fuel as [| fuel]; [lia | ].
    rewrite (walk_step _ _ _ Hk), (successor_app_none _ _ _ Hcur), successor_head.
    cbn. rewrite (walk_gain _ _ _ Hg). cbn. now rewrite Hg.
  - cbn [applyActive] in H.
    rewrite (applyEffect_stageStep (reliable rnd) f e _ _ (isComposite_false e He) eq_refl) in H.
    destruct (writeRate_frame (rateWrite e) st)
      as (_ & _ & _ & _ & _ & _ & Wc & Wn & _).
    destruct (body e) as [| ic raf ss |] eqn:Eb.
    + (* the effect returns its argument *)
      rewrite (stageStep_passthrough _ _ _ Eb) in H. cbn [fst snd] in H.
      cbn [pathAfter] in *. rewrite Eb in *.
      refine (IH cur _ n st3 Hk _ _ _ H fuel Hfuel);
        cbn; rewrite ?Wc, ?Wn; assumption.
    + rewrite (stageStep_subgraph _ _ _ _ _ _ Eb) in H. cbn [fst snd] in H.
      set (out := mkNode (created st) (StageNode (id e))) in *.
      set (st0 := startTasks (id e) raf ss
                    (withCreated (S (created st)) (writeRate (rateWrite e) st))) in *.
      assert (C0 : connections st0 = connections st) by exact Wc.
      assert (N0 : created st0 = S (created st)) by reflexivity.
      assert (Os : serial out = created st) by reflexivity.
      assert (Ok : kind out = StageNode (id e)) by reflexivity.
      clearbody st0 out.
      assert (Hcur0 : List.Forall (fun e => sameNode (fst e) cur = false)
                        (connections st0)) by (now rewrite C0).
      assert (Hout : List.Forall (fun e => sameNode (fst e) out = false)
                       (connections st)).
      { eapply List.Forall_impl; [ | exact Hold]. cbn. intros a Ha.
        apply sameNode_false. lia. }
      pose proof (applyActive_post (reliable rnd) f es out) as P.
      cbn [pathAfter] in *. rewrite Eb in *.
      destruct ic; cbv beta zeta iota in H.
      * (* the input is connected to the new node *)
        rewrite (connect_fresh _ _ _ Hcur0) in H.
        set (st1 := withEffectNodes _ _) in H.
        assert (C1 : connections st1 = connections st ++ [(cur, out)])
          by (unfold st1; cbn; now rewrite C0).
        assert (N1 : created st1 = S (created st)) by exact N0.
        clearbody st1.
        specialize (P st1). rewrite H in P.
        destruct P as (G & R & _).
        destruct G as (_ & _ & _ & _ & _ & _ & (x & Gx & _) & _).
        cbn [length] in Hfuel.
        destruct fuel as [| fuel]; [lia | ].
        rewrite (walk_step _ _ _ Hk).
        destruct (connect_prefix n g st3) as (y & Cy & _).
        assert (Succ : successor (connections (connect n g st3)) cur = Some out).
        { rewrite Cy, Gx, C1, <- !app_assoc.
          rewrite (successor_app_none _ _ _ Hcur). cbn [app].
          apply successor_head. }
        rewrite Succ. cbn [List.map]. f_equal. rewrite <- Ok.
        apply (IH out st1); try assumption.
        -- rewrite Ok. discriminate.
        -- lia.
        -- rewrite C1, N1. apply List.Forall_app. split.
           ++ eapply List.Forall_impl; [ | exact Hold]. cbn. intros; lia.
           ++ constructor; [ | constructor]. cbn. lia.
        -- rewrite C1. apply List.Forall_app. split; [exact Hout | ].
           constructor; [ | constructor]. apply sameNode_false. cbn. lia.
        -- lia.
      * (* the input is left unconnected: nothing leaves the current node *)
        set (st1 := withEffectNodes _ _) in H.
        assert (C1 : connections st1 = connections st) by exact C0.
        assert (N1 : created st1 = S (created st)) by exact N0.
        clearbody st1.
        specialize (P st1). rewrite H in P.
        destruct P as (G & R & _).
        destruct G as (_ & _ & _ & _ & _ & _ & (x & Gx & Fx) & _).
        assert (None' : successor (connections (connect n g st3)) cur = None).
        { apply successor_none.
          destruct (connect_prefix n g st3) as (y & Cy & Ey).
          rewrite Cy, Gx, C1. repeat (apply List.Forall_app; split).
          - exact Hcur.
          - eapply List.Forall_impl; [ | exact Fx]. cbn. intros a [[Ea | Ea] _];
              apply sameNode_false; [rewrite Ea; lia | rewrite N1 in Ea; lia].
          - destruct Ey as [-> | ->]; constructor; [ | constructor].
            cbn. apply sameNode_false.
            destruct R as [-> | [Rn _]]; [lia | rewrite N1 in Rn; lia]. }
        destruct fuel as [| fuel]; [reflexivity | ].
        rewrite (walk_step _ _ _ Hk), None'. reflexivity.
    + unfold isComposite in He. rewrite Eb in He. discriminate.
Qed.

Lemma pathAfter_length (rnd : nat -> Q) (f : nat) (es : list AudioEffect) :
  List.Forall (fun e => isComposite e = false) es ->
  forall (cur : AudioNode) (st : Engine) (n : AudioNode) (st3 : Engine),
    applyActive (reliable rnd) f es cur st = Returned n st3 ->
    (length (pathAfter es) + created st <= created st3 + 1)%nat.
Proof.
  induction 1 as [| e es He _ IH]; intros cur st n st3 H.
  - cbn in H. inversion H. cbn. lia.
  - cbn [applyActive] in H.
    rewrite (applyEffect_stageStep (reliable rnd) f e _ _ (isComposite_false e He) eq_refl) in H.
    destruct (writeRate_frame (rateWrite e) st)
      as (_ & _ & _ & _ & _ & _ & _ & Wn & _).
    destruct (body e) as [| ic raf ss |] eqn:Eb.
    + rewrite (stageStep_passthrough _ _ _ Eb) in H. cbn [fst snd] in H.
      apply IH in H. cbn [pathAfter]. rewrite Eb. cbn in H. lia.
    + rewrite (stageStep_subgraph _ _ _ _ _ _ Eb) in H. cbn [fst snd] in H.
      cbn [pathAfter]. rewrite Eb. destruct ic.
      * apply IH in H. cbn zeta in H.
        destruct (connect_cases cur (mkNode (created st) (StageNode (id e)))
                    (startTasks (id e) raf ss
                       (withCreated (S (created st)) (writeRate (rateWrite e) st))))
          as [E | E]; rewrite E in H; cbn in H |- *; lia.
      * apply IH in H. cbn in H |- *. lia.
    + unfold isComposite in He. rewrite Eb in He. discriminate.
Qed.

(** ** The graph after a rebuild *)

Lemma teardown_from_source (s : AudioNode) (st : Engine) :
  List.Forall (fun e => sameNode (fst e) s = false) (connections (teardown s st)).
Proof.
  rewrite teardown_connections. apply List.Forall_forall. intros e He.
  apply filter_In in He as [_ He]. now apply negb_true_iff.
Qed.

Lemma teardown_subset (s : AudioNode) (st : Engine) (e : AudioNode * AudioNode) :
  In e (connections (teardown s st)) ->
  In e (connections st) /\ sameNode (fst e) s = false /\
  List.existsb (fun kv => sameNode (fst e) (snd kv)) (effectNodesRef st) = false.
Proof.
  rewrite teardown_connections. intros He.
  apply filter_In in He as [He H1]. apply filter_In in He as [He H2].
  repeat split; [assumption | now apply negb_true_iff | now apply negb_true_iff].
Qed.

(** After the teardown nothing feeds the master gain node. *)
Lemma teardown_no_gain_edge (st : Engine) (s g : AudioNode) :
  WellFormed st s g ->
  List.Forall (fun e => sameNode (snd e) g = false) (connections (teardown s st)).
Proof.
  intros (_ & _ & _ & _ & _ & _ & _ & _ & _ & _ & _ & F3).
  apply List.Forall_forall. intros e He.
  apply teardown_subset in He as (He & H1 & H2).
  rewrite List.Forall_forall in F3. specialize (F3 e He).
  destruct (sameNode (snd e) g) eqn:E; [ | reflexivity].
  apply sameNode_true in E. destruct (F3 E) as [Hs | Hx].
  - apply sameNode_false in H1. contradiction.
  - apply (existsb_Exists (fun kv => sameNode (fst e) (snd kv))) in Hx;
      [congruence | intros kv; apply sameNode_true].
Qed.

Lemma grows_no_gain_edge (src g : AudioNode) (a b : Engine) :
  growsFrom src a b -> (serial g < created a)%nat ->
  List.Forall (fun e => sameNode (snd e) g = false) (connections a) ->
  List.Forall (fun e => sameNode (snd e) g = false) (connections b).
Proof.
  intros (_ & _ & _ & _ & _ & _ & (x & Gx & Fx) & _) Hg Ha.
  rewrite Gx. apply List.Forall_app. split; [exact Ha | ].
  eapply List.Forall_impl; [ | exact Fx]. cbn. intros e [_ He].
  apply sameNode_false. lia.
Qed.

Lemma gainFed_false (st : Engine) (g : AudioNode) :
  gainNodeRef st = Some g ->
  List.Forall (fun e => sameNode (snd e) g = false) (connections st) ->
  gainFed st = false.
Proof.
  intros Hg H. unfold gainFed. rewrite Hg.
  induction H as [| e c He _ IH]; cbn; [reflexivity | now rewrite He].
Qed.

Lemma fallback_needs_gain_edge (st : Engine) :
  gainFed st = false -> fallbackGraph st = false.
Proof.
  unfold gainFed, fallbackGraph.
  destruct (sourceNodeRef st) as [s |]; [ | reflexivity].
  destruct (gainNodeRef st) as [g |]; [ | reflexivity].
  destruct (effectNodesRef st); [ | reflexivity].
  intros H. apply andb_false_iff. left. unfold connected.
  induction (connections st) as [| e c IH]; cbn in *; [reflexivity | ].
  apply orb_false_iff in H as [H1 H2]. rewrite H1, andb_false_r. now apply IH.
Qed.

Lemma applyActive_keys_threw (h : Host) (f : nat) (es : list AudioEffect)
    (src : AudioNode) (st : Engine) (c : Z) (st' : Engine) :
  applyActive h f es src st = Threw c st' ->
  List.NoDup (List.map fst (effectNodesRef st) ++ List.map id es) ->
  exists done rest,
    es = done ++ rest /\ rest <> [] /\
    List.map fst (effectNodesRef st') =
      List.map fst (effectNodesRef st) ++ List.map id done.
Proof.
  revert src st. induction es as [| e es IH]; intros src st H Hnd.
  - cbn in H. discriminate.
  - cbn [applyActive] in H.
    pose proof (applyEffect_post h f e src st) as P.
    destruct (applyEffect h f e src st) as [n1 st1 | c1 st1 |]; try discriminate.
    + cbn in P. destruct P as (_ & _ & N1).
      assert (Hfresh : ~ In (id e) (List.map fst (effectNodesRef st))).
      { intros Hin. cbn in Hnd. apply List.NoDup_remove_2 in Hnd.
        apply Hnd. apply in_or_app. now left. }
      apply IH in H.
      * destruct H as (done & rest & E1 & E2 & E3).
        exists (e :: done), rest. split; [now rewrite E1 | ].
        split; [assumption | ]. rewrite E3. cbn.
        rewrite N1, (mapSet_fresh _ _ _ Hfresh), List.map_app. cbn.
        now rewrite <- app_assoc.
      * cbn. rewrite N1, (mapSet_fresh _ _ _ Hfresh), List.map_app. cbn.
        rewrite <- app_assoc. exact Hnd.
    + cbn in P. destruct P as (_ & _ & N1). inversion H; subst.
      exists [], (e :: es). split; [reflexivity | ]. split; [discriminate | ].
      cbn. now rewrite app_nil_r, N1.
Qed.

(** C8. When an [apply] throws during a rebuild, the exception leaves the
    effect uncaught. By then the source node and every registered effect
    node have been disconnected and the final connection has not been made:
    nothing feeds the master gain node, so the graph is not the fallback
    graph; the registry holds the active effects that come before the one
    that failed. *)
Theorem rebuild_throw_leaves_gain_unfed (h : Host) (fuel : nat)
    (st : Engine) (culprit : Z) (st' : Engine) :
  wellFormed st = true ->
  rebuild h fuel st = Threw culprit st' ->
  raises h culprit = true /\
  gainFed st' = false /\
  fallbackGraph st' = false /\
  exists done rest,
    activeEffects (activeEffectIds st) = done ++ rest /\ rest <> [] /\
    chainOrder st' = List.map id done.
Proof.
  intros Hwf H.
  pose proof (wellFormed_ready st Hwf) as Hr.
  apply wellFormed_iff in Hwf as (s & g & W).
  pose proof W as (_ & _ & H3 & H4 & _ & _ & _ & Bg & _).
  rewrite (rebuild_unfold _ _ _ s g Hr H3 H4) in H.
  pose proof (applyActive_post h fuel (activeEffects (activeEffectIds st)) s
                (teardown s st)) as P.
  destruct (applyActive h fuel _ s (teardown s st)) as [| c st3 |] eqn:E;
    try discriminate.
  inversion H; subst c st3. cbn in P. destruct P as (G & R & _).
  destruct (teardown_frame s st) as (T1 & T2 & T3 & T4 & T5 & T6 & T7 & _).
  assert (Fed : gainFed st' = false).
  { apply (gainFed_false st' g).
    - destruct G as (_ & _ & _ & _ & -> & _). now rewrite T5.
    - eapply grows_no_gain_edge; [exact G | now rewrite T7 | ].
      now apply teardown_no_gain_edge. }
  split; [exact R | ]. split; [exact Fed | ].
  split; [now apply fallback_needs_gain_edge | ].
  apply applyActive_keys_threw in E.
  - rewrite T6 in E. exact E.
  - rewrite T6. apply activeEffects_NoDup.
Qed.

Lemma rebuild_throw_leaves_gain_unfed_witness :
  exists st',
    rebuild (withoutStereoPanner (fun _ => 0%Q)) 1
      (withIds [2; 1] loaded) = Threw 2 st' /\
    gainFed st' = false /\ fallbackGraph st' = false /\ chainOrder st' = [1].
Proof.
  eexists. split; [vm_compute; reflexivity | ].
  match goal with
  | |- gainFed ?s = _ /\ _ =>
      destruct (rebuild_throw_leaves_gain_unfed
                  (withoutStereoPanner (fun _ => 0%Q))
                  1 (withIds [2; 1] loaded) 2 s) as (_ & A & B & _)
  end.
  - reflexivity.
  - vm_compute. reflexivity.
  - split; [exact A | ]. split; [exact B | reflexivity].
Defined.

(** The claim of C8 fails where 8D Audio is the only active effect and the
    browser has no stereo panner: the rebuild ends with the exception and
    the graph is not the fallback graph. *)
Lemma rebuild_throw_is_not_recovered :
  exists st',
    rebuild (withoutStereoPanner (fun _ => 0%Q)) 1 (withIds [2] loaded)
      = Threw 2 st' /\
    fallbackGraph st' = false.
Proof. eexists. split; vm_compute; reflexivity. Qed.

Lemma WellFormed_withIds (ids : list Z) (st : Engine) (s g : AudioNode) :
  WellFormed st s g -> WellFormed (withIds ids st) s g.
Proof. unfold WellFormed. cbn. tauto. Qed.

Lemma rebuild_WellFormed (h : Host) (f : nat) (st st' : Engine) (s g : AudioNode) :
  WellFormed st s g -> rebuild h f st = Returned tt st' -> WellFormed st' s g.
Proof.
  intros W H.
  assert (Hr : ready st = true).
  { apply wellFormed_ready, wellFormed_iff. now exists s, g. }
  pose proof W as (H1 & H2 & H3 & H4 & K1 & K2 & B1 & B2 & D & F1 & F2 & F3).
  rewrite (rebuild_unfold _ _ _ s g Hr H3 H4) in H.
  pose proof (applyActive_post h f (activeEffects (activeEffectIds st)) s
                (teardown s st)) as P.
  destruct (applyActive h f _ s (teardown s st)) as [n st3 | |] eqn:E;
    try discriminate.
  cbn in P. destruct P as (G & R & V).
  pose proof (applyActive_last _ _ _ _ _ _ _ E) as L.
  destruct (teardown_frame s st) as (T1 & T2 & T3 & T4 & T5 & T6 & T7 & _).
  pose proof G as (G1 & G2 & G3 & G4 & G5 & G6 & (x & Gx & Fx) & _).
  rewrite T7 in *.
  assert (Hn : (serial n < created st3)%nat).
  { destruct R as [-> | [Rn _]]; lia. }
  assert (W' : WellFormed (connect n g st3) s g).
  { destruct (connect_frame n g st3) as (C1 & C2 & C3 & C4 & C5 & C6 & C7 & _).
    unfold WellFormed. rewrite C2, C3, C4, C5, C6, C7.
    repeat split; try congruence; try lia.
    - (* every node mentioned was created *)
      destruct (connect_prefix n g st3) as (y & Cy & Ey). rewrite Cy, Gx.
      repeat (apply List.Forall_app; split).
      + apply List.Forall_forall. intros e He.
        apply teardown_subset in He as (He & _).
        rewrite List.Forall_forall in F1. specialize (F1 e He). lia.
      + eapply List.Forall_impl; [ | exact Fx]. cbn.
        intros e [[-> | He1] He2]; lia.
      + destruct Ey as [-> | ->]; constructor; [ | constructor]. cbn. lia.
    - apply List.Forall_forall. intros kv Hkv.
      destruct (V kv Hkv) as [Hin | [-> | [Hkv' _]]].
      + rewrite ?T6 in Hin. destruct Hin.
      + lia.
      + lia.
    - (* what feeds the master gain node *)
      destruct (connect_prefix n g st3) as (y & Cy & Ey). rewrite Cy, Gx.
      repeat (apply List.Forall_app; split).
      + pose proof (teardown_no_gain_edge st s g W) as N.
        eapply List.Forall_impl; [ | exact N]. cbn. intros e He Heq.
        apply sameNode_false in He. contradiction.
      + eapply List.Forall_impl; [ | exact Fx]. cbn. intros e [_ He] Heq. lia.
      + destruct Ey as [-> | ->]; constructor; [ | constructor]. cbn. intros _.
        destruct L as [[_ ->] | (k & Hk)]; [now left | right].
        apply List.Exists_exists. exists (k, n). split; [assumption | reflexivity]. }
  inversion H as [H']. destruct (negb _); [ | exact W'].
  unfold WellFormed in *. cbn. exact W'.
Qed.

Lemma rebuild_wellFormed (h : Host) (f : nat) (st st' : Engine) :
  wellFormed st = true -> rebuild h f st = Returned tt st' ->
  wellFormed st' = true.
Proof.
  intros W H. apply wellFormed_iff in W as (s & g & W).
  apply wellFormed_iff. exists s, g. eapply rebuild_WellFormed; eassumption.
Qed.

(** The signal path after a rebuild without Random FX. *)
Lemma rebuild_signalPath (rnd : nat -> Q) (f : nat) (st st' : Engine)
    (s g : AudioNode) :
  WellFormed st s g ->
  List.Forall (fun e => isComposite e = false) (activeEffects (activeEffectIds st)) ->
  rebuild (reliable rnd) f st = Returned tt st' ->
  signalPath st' = MediaElementSource :: pathAfter (activeEffects (activeEffectIds st)).
Proof.
  intros W Hc H.
  assert (Hr : ready st = true).
  { apply wellFormed_ready, wellFormed_iff. now exists s, g. }
  pose proof W as (H1 & H2 & H3 & H4 & K1 & K2 & B1 & B2 & D & F1 & F2 & F3).
  rewrite (rebuild_unfold _ _ _ s g Hr H3 H4) in H.
  pose proof (applyActive_post (reliable rnd) f
                (activeEffects (activeEffectIds st)) s (teardown s st)) as P.
  destruct (applyActive (reliable rnd) f _ s (teardown s st)) as [n st3 | |] eqn:E;
    try discriminate.
  cbn in P. destruct P as (G & _).
  destruct (teardown_frame s st) as (T1 & T2 & T3 & T4 & T5 & T6 & T7 & _).
  pose proof G as (_ & _ & _ & G4 & _ & G6 & _).
  destruct (connect_frame n g st3) as (_ & _ & _ & C4 & _ & _ & C7 & _).
  pose proof (pathAfter_length rnd f _ Hc _ _ _ _ E) as Len.
  assert (S' : signalPath (connect n g st3) =
               MediaElementSource :: pathAfter (activeEffects (activeEffectIds st))).
  { unfold signalPath. rewrite C4, G4, T4, H3, C7, <- K1.
    apply (walk_after_forEach rnd f g _ Hc K2 s (teardown s st) n st3);
      try assumption.
    - congruence.
    - now rewrite T7.
    - apply List.Forall_forall. intros e He.
      apply teardown_subset in He as (He & _).
      rewrite List.Forall_forall in F1. specialize (F1 e He). rewrite T7. lia.
    - apply teardown_from_source.
    - rewrite T7 in Len. lia. }
  inversion H as [H']. destruct (negb _); exact S'.
Qed.

Lemma rebuild_background (h : Host) (f : nat) (st st' : Engine) :
  rebuild h f st = Returned tt st' ->
  exists tasks, background st' = background st ++ tasks.
Proof.
  intros H. destruct (ready st) eqn:Hr.
  - destruct (ready_refs st Hr) as (c & s & g & H1 & H2 & H3 & H4).
    rewrite (rebuild_unfold _ _ _ s g Hr H3 H4) in H.
    pose proof (applyActive_post h f (activeEffects (activeEffectIds st)) s
                  (teardown s st)) as P.
    destruct (applyActive h f _ s (teardown s st)) as [n st3 | |];
      try discriminate.
    cbn in P. destruct P as ((_ & _ & _ & _ & _ & _ & _ & (t & Gt)) & _).
    destruct (teardown_frame s st) as (_ & _ & _ & _ & _ & _ & _ & _ & T & _).
    destruct (connect_frame n g st3) as (_ & _ & _ & _ & _ & _ & _ & C).
    exists t. inversion H as [H']. destruct (negb _); cbn; rewrite C, Gt, T;
      reflexivity.
  - rewrite rebuild_not_ready in H by assumption. inversion H.
    exists []. now rewrite app_nil_r.
Qed.

Lemma lastRate_indep (es : list AudioEffect) (r r' : Q) :
  List.existsb rateAffecting es = true -> lastRate es r = lastRate es r'.
Proof.
  unfold lastRate. revert r r'. induction es as [| e es IH]; intros r r' H.
  - discriminate.
  - cbn in *. unfold rateAffecting in H at 1.
    destruct (rateWrite e); [reflexivity | ]. cbn in H. now apply IH.
Qed.

Lemma speed_names_write_rate (e : AudioEffect) :
  In e availableEffects ->
  List.existsb (String.eqb (name e)) speedNames = true -> rateAffecting e = true.
Proof.
  intros He Hn.
  assert (A : List.forallb
                (fun a => implb (List.existsb (String.eqb (name a)) speedNames)
                                (rateAffecting a)) availableEffects = true)
    by (vm_compute; reflexivity).
  rewrite List.forallb_forall in A. specialize (A e He).
  now rewrite Hn in A.
Qed.

Lemma speedEffectActive_writes (ids : list Z) :
  speedEffectActive (activeEffects ids) = true ->
  List.existsb rateAffecting (activeEffects ids) = true.
Proof.
  unfold speedEffectActive. rewrite !List.existsb_exists.
  intros (e & He & Hn). exists e. split; [assumption | ].
  apply speed_names_write_rate; [ | assumption].
  now apply activeEffects_In in He as [He _].
Qed.

Lemma no_composite_active (ids : list Z) :
  includes ids 47 = false ->
  List.Forall (fun e => isComposite e = false) (activeEffects ids).
Proof.
  intros H. apply List.Forall_forall. intros e He.
  apply activeEffects_In in He as [He Hi].
  unfold isComposite. destruct (body e) eqn:Eb; try reflexivity.
  rewrite (composite_is_47 e He Eb) in Hi. congruence.
Qed.

(** Without Random FX the rate after a rebuild is a function of the active
    effects alone. *)
Lemma rebuild_rate_determined (rnd rnd' : nat -> Q) (f f' : nat)
    (a a' b b' : Engine) :
  ready a = true -> ready b = true ->
  activeEffects (activeEffectIds a) = activeEffects (activeEffectIds b) ->
  List.Forall (fun e => isComposite e = false) (activeEffects (activeEffectIds a)) ->
  rebuild (reliable rnd) f a = Returned tt a' ->
  rebuild (reliable rnd') f' b = Returned tt b' ->
  playbackRate a' = playbackRate b'.
Proof.
  intros Ha Hb Hes Hc Ea Eb.
  destruct (speedEffectActive (activeEffects (activeEffectIds a))) eqn:Hs.
  - rewrite (rebuild_rate_kept _ _ _ _ Ha Ea Hs Hc).
    rewrite Hes in Hs, Hc.
    rewrite (rebuild_rate_kept _ _ _ _ Hb Eb Hs Hc), Hes.
    apply lastRate_indep. now apply speedEffectActive_writes.
  - rewrite (rebuild_rate_reset _ _ _ _ Ha Ea Hs).
    rewrite Hes in Hs. now rewrite (rebuild_rate_reset _ _ _ _ Hb Eb Hs).
Qed.

(** *** Last writer wins, where the reset does not interfere *)

Lemma lastRate_app (l1 l2 : list AudioEffect) (r : Q) :
  lastRate (l1 ++ l2) r = lastRate l2 (lastRate l1 r).
Proof. unfold lastRate. apply List.fold_left_app. Qed.

Lemma lastRate_silent (es : list AudioEffect) (r : Q) :
  List.Forall (fun e => rateWrite e = None) es -> lastRate es r = r.
Proof.
  unfold lastRate. induction 1 as [| e es He _ IH]; cbn; [reflexivity | ].
  now rewrite He.
Qed.

Lemma last_writer_split (es : list AudioEffect) :
  List.existsb rateAffecting es = true ->
  exists before e q after,
    es = before ++ e :: after /\ rateWrite e = Some q /\
    List.Forall (fun a => rateWrite a = None) after.
Proof.
  induction es as [| a es IH]; [discriminate | ]. intros H.
  destruct (List.existsb rateAffecting es) eqn:Ex.
  - destruct (IH eq_refl) as (before & e & q & after & E1 & E2 & E3).
    exists (a :: before), e, q, after. now rewrite E1.
  - cbn in H. rewrite Ex, orb_false_r in H. unfold rateAffecting in H.
    destruct (rateWrite a) as [q |] eqn:Ea; [ | discriminate].
    exists [], a, q, es. repeat split; [assumption | ].
    apply List.Forall_forall. intros x Hx.
    destruct (rateWrite x) eqn:Erx; [ | reflexivity].
    assert (List.existsb rateAffecting es = true); [ | congruence].
    apply List.existsb_exists. exists x. split; [assumption | ].
    unfold rateAffecting. now rewrite Erx.
Qed.

Lemma ascending_split (before : list Z) (x : Z) (after : list Z) :
  ascending (before ++ x :: after) -> List.Forall (fun y => y < x) before.
Proof.
  unfold ascending. induction before as [| b before IH]; cbn; intros H.
  - constructor.
  - apply StronglySorted_inv in H as [H Hall]. constructor; [ | now apply IH].
    rewrite List.Forall_forall in Hall. apply Hall. apply in_or_app. right. now left.
Qed.

(** C7, as the code has it. When Random FX is not active and at least one of
    the four effects named in the reset clause is, the rate after the
    rebuild is the one written by the active rate-writing effect with the
    highest id: the last writer of the forEach wins. *)
Theorem last_writer_wins (rnd : nat -> Q) (f : nat) (st st' : Engine) :
  ready st = true -> rebuild (reliable rnd) f st = Returned tt st' ->
  includes (activeEffectIds st) 47 = false ->
  speedEffectActive (activeEffects (activeEffectIds st)) = true ->
  exists e,
    In e (activeEffects (activeEffectIds st)) /\
    rateWrite e = Some (playbackRate st') /\
    forall a, In a (activeEffects (activeEffectIds st)) ->
              rateAffecting a = true -> id a <= id e.
Proof.
  intros Hr H H47 Hs.
  pose proof (no_composite_active _ H47) as Hc.
  rewrite (rebuild_rate_kept _ _ _ _ Hr H Hs Hc).
  pose proof (activeEffects_ids (activeEffectIds st)) as Hids.
  assert (Asc : ascending (List.map id (activeEffects (activeEffectIds st)))).
  { rewrite Hids. apply filter_ascending, catalogIds_ascending. }
  destruct (last_writer_split _ (speedEffectActive_writes _ Hs))
    as (before & e & q & after & E1 & E2 & E3).
  revert Asc. generalize (playbackRate st). rewrite E1. intros r Asc.
  exists e. split; [apply in_or_app; right; now left | ]. split.
  - rewrite lastRate_app. change (e :: after) with ([e] ++ after).
    rewrite lastRate_app, (lastRate_silent after _ E3).
    unfold lastRate. cbn. now rewrite E2.
  - intros a Ha Hw. apply in_app_or in Ha as [Ha | [<- | Ha]].
    + rewrite List.map_app in Asc. cbn in Asc. apply ascending_split in Asc.
      rewrite List.Forall_forall in Asc.
      specialize (Asc (id a) (in_map id _ _ Ha)). lia.
    + lia.
    + rewrite List.Forall_forall in E3. specialize (E3 a Ha).
      unfold rateAffecting in Hw. rewrite E3 in Hw. discriminate.
Qed.

Lemma last_writer_wins_witness :
  exists st' e,
    rebuild (reliable (fun _ => 0%Q)) 1 (withIds [28; 5; 4] settled)
      = Returned tt st' /\
    In e (activeEffects [28; 5; 4]) /\
    rateWrite e = Some (playbackRate st') /\
    forall a, In a (activeEffects [28; 5; 4]) -> rateAffecting a = true ->
              id a <= id e.
Proof.
  destruct (rebuild_reliable (fun _ => 0%Q) 0 (withIds [28; 5; 4] settled))
    as (st' & E).
  destruct (last_writer_wins (fun _ => 0%Q) 1 (withIds [28; 5; 4] settled) st')
    as (e & H).
  - reflexivity.
  - exact E.
  - reflexivity.
  - vm_compute. reflexivity.
  - exists st', e. split; [exact E | exact H].
Defined.

(** The claim of C7 fails with Nightcore (4), Vaporwave (5) and Random FX
    (47) active when the shuffle draws 0 every time: Random FX then applies
    8D Audio, Reverb and Nightcore, so the last write is Nightcore's 1.3,
    while the active rate-writing effect with the highest id is Vaporwave
    with 0.8. *)
Lemma random_fx_overrides_highest_id :
  List.map id (selectedEffects (fun _ => 0%Q) 0) = [2; 3; 4] /\
  List.map id (List.filter rateAffecting (activeEffects [4; 5; 47])) = [4; 5] /\
  lastRate (List.filter rateAffecting (activeEffects [4; 5; 47])) 1.0%Q = 0.8%Q /\
  match rebuild (reliable (fun _ => 0%Q)) 1 (withIds [4; 5; 47] settled) with
  | Returned _ st' => playbackRate st' = 1.3%Q
  | _ => False
  end.
Proof. vm_compute. repeat split. Qed.

(** ** Toggling twice *)

Lemma stageCount_chainOrder (st : Engine) : stageCount st = length (chainOrder st).
Proof. unfold stageCount, chainOrder. now rewrite List.length_map. Qed.

(** C5, as the code has it. From a state left by a rebuild in which Random
    FX is not active, toggling an id twice gives back the same activation
    set, the same registered stages in the same order, the same signal path
    from the source node and the same playback rate. The activities started
    by the constructors during the two rebuilds are never stopped: those of
    the first rebuild are still running after the second. *)
Theorem toggle_twice_restores_chain (rnd : nat -> Q) (fuel : nat) (i : Z)
    (st0 st : Engine) :
  wellFormed st0 = true ->
  rebuild (reliable rnd) (S fuel) st0 = Returned tt st ->
  includes (activeEffectIds st) 47 = false ->
  exists st1 st2 started1 started2,
    click (reliable rnd) (S fuel) i st = Returned tt st1 /\
    click (reliable rnd) (S fuel) i st1 = Returned tt st2 /\
    (forall j, includes (activeEffectIds st2) j = includes (activeEffectIds st) j) /\
    chainOrder st2 = chainOrder st /\
    stageCount st2 = stageCount st /\
    signalPath st2 = signalPath st /\
    playbackRate st2 = playbackRate st /\
    background st1 = background st ++ started1 /\
    background st2 = background st ++ started1 ++ started2.
Proof.
  intros Hwf E0 H47.
  pose proof (wellFormed_ready st0 Hwf) as Hr0.
  apply wellFormed_iff in Hwf as (s & g & W0).
  pose proof (rebuild_WellFormed _ _ _ _ _ _ W0 E0) as W.
  pose proof (rebuild_ids _ _ _ _ E0) as I0.
  set (a := withIds (toggleEffect i (activeEffectIds st)) st).
  destruct (rebuild_reliable rnd fuel a) as (st1 & E1).
  pose proof (rebuild_WellFormed _ _ _ _ _ _ (WellFormed_withIds _ _ _ _ W) E1) as W1.
  pose proof (rebuild_ids _ _ _ _ E1) as I1. unfold a in I1. rewrite withIds_ids in I1.
  set (b := withIds (toggleEffect i (activeEffectIds st1)) st1).
  destruct (rebuild_reliable rnd fuel b) as (st2 & E2).
  pose proof (rebuild_ids _ _ _ _ E2) as I2. unfold b in I2. rewrite withIds_ids in I2.
  pose proof (WellFormed_withIds (toggleEffect i (activeEffectIds st1)) _ _ _ W1) as Wb.
  fold b in Wb.
  assert (Hrb : ready b = true).
  { apply wellFormed_ready, wellFormed_iff. now exists s, g. }
  assert (A : activeEffects (activeEffectIds b) = activeEffects (activeEffectIds st0)).
  { unfold b. rewrite withIds_ids, I1, <- I0. apply activeEffects_toggle_twice. }
  assert (Nc : List.Forall (fun e => isComposite e = false)
                 (activeEffects (activeEffectIds st0))).
  { rewrite <- I0. now apply no_composite_active. }
  destruct (rebuild_background _ _ _ _ E1) as (t1 & B1).
  destruct (rebuild_background _ _ _ _ E2) as (t2 & B2).
  exists st1, st2, t1, t2.
  rewrite !click_unfold. fold a. fold b.
  split; [exact E1 | ]. split; [exact E2 | ].
  assert (C : chainOrder st2 = chainOrder st).
  { rewrite (rebuild_chainOrder _ _ _ _ Hrb E2), (rebuild_chainOrder _ _ _ _ Hr0 E0).
    now rewrite A. }
  split.
  { intros j. rewrite I2, I1.
    destruct (Z.eq_dec j i) as [-> | Hne].
    - rewrite !toggleEffect_includes_self. apply negb_involutive.
    - now rewrite !toggleEffect_includes_other. }
  split; [exact C | ].
  split; [now rewrite !stageCount_chainOrder, C | ].
  split.
  { rewrite (rebuild_signalPath _ _ _ _ _ _ W0 Nc E0).
    rewrite <- A in Nc.
    rewrite (rebuild_signalPath _ _ _ _ _ _ Wb Nc E2). now rewrite A. }
  split.
  { rewrite <- A in Nc.
    exact (rebuild_rate_determined _ _ _ _ _ _ _ _ Hrb Hr0 A Nc E2 E0). }
  split.
  - rewrite B1. reflexivity.
  - rewrite B2. unfold b. rewrite withIds_background, B1. unfold a.
    rewrite withIds_background. now rewrite app_assoc.
Qed.

Lemma toggle_twice_restores_chain_witness :
  exists st1 st2 started1 started2,
    click (reliable (fun _ => 0%Q)) 1 2 settled = Returned tt st1 /\
    click (reliable (fun _ => 0%Q)) 1 2 st1 = Returned tt st2 /\
    (forall j, includes (activeEffectIds st2) j = includes (activeEffectIds settled) j) /\
    chainOrder st2 = chainOrder settled /\
    stageCount st2 = stageCount settled /\
    signalPath st2 = signalPath settled /\
    playbackRate st2 = playbackRate settled /\
    background st1 = background settled ++ started1 /\
    background st2 = background settled ++ started1 ++ started2.
Proof.
  apply (toggle_twice_restores_chain (fun _ => 0%Q) 0 2 loaded settled).
  - reflexivity.
  - reflexivity.
  - reflexivity.
Defined.

(** The claim of C5 fails for 8D Audio (id 2): after toggling it on and off
    in the engine with no effect active the activation list is empty again and
    the animation-frame loop started by the constructor is still running. *)
Lemma toggle_twice_leaks_animation_loop :
  background settled = [] /\
  match clicks (reliable (fun _ => 0%Q)) 1 [2; 2] settled with
  | Returned _ st2 =>
      activeEffectIds st2 = activeEffectIds settled /\
      background st2 = [AnimationLoop 2]
  | _ => False
  end.
Proof. vm_compute. repeat split. Qed.

(** ** Ids outside the catalog *)

(** C3, as the code has it. [toggleEffect] has no failure: for an id outside
    the catalog the click completes, the id enters or leaves the stored
    activation list like any other, the list of active effects stays what
    it was, and the rebuild registers the same effects in the same order. *)
Theorem toggle_outside_catalog (rnd : nat -> Q) (fuel : nat) (i : Z) (st : Engine) :
  inCatalog i = false ->
  ready st = true ->
  exists st',
    click (reliable rnd) (S fuel) i st = Returned tt st' /\
    includes (activeEffectIds st') i = negb (includes (activeEffectIds st) i) /\
    (forall j, j <> i ->
       includes (activeEffectIds st') j = includes (activeEffectIds st) j) /\
    activeEffects (activeEffectIds st') = activeEffects (activeEffectIds st) /\
    chainOrder st' = List.map id (activeEffects (activeEffectIds st)).
Proof.
  intros Hout Hr. rewrite click_unfold.
  set (a := withIds (toggleEffect i (activeEffectIds st)) st).
  destruct (rebuild_reliable rnd fuel a) as (st' & E).
  pose proof (rebuild_ids _ _ _ _ E) as I. unfold a in I. rewrite withIds_ids in I.
  assert (Hra : ready a = true) by exact Hr.
  exists st'. split; [exact E | ]. rewrite I.
  split; [apply toggleEffect_includes_self | ].
  split; [intros j Hj; now apply toggleEffect_includes_other | ].
  split; [now apply activeEffects_toggle_outside | ].
  rewrite (rebuild_chainOrder _ _ _ _ Hra E). unfold a. rewrite withIds_ids.
  now rewrite activeEffects_toggle_outside.
Qed.

Lemma toggle_outside_catalog_witness :
  exists st',
    click (reliable (fun _ => 0%Q)) 1 99 settled = Returned tt st' /\
    includes (activeEffectIds st') 99 = negb (includes (activeEffectIds settled) 99) /\
    (forall j, j <> 99 ->
       includes (activeEffectIds st') j = includes (activeEffectIds settled) j) /\
    activeEffects (activeEffectIds st') = activeEffects (activeEffectIds settled) /\
    chainOrder st' = List.map id (activeEffects (activeEffectIds settled)).
Proof.
  apply (toggle_outside_catalog (fun _ => 0%Q) 0 99 settled).
  - reflexivity.
  - reflexivity.
Defined.

(** The claim of C3 fails for id 99: the click completes without an
    exception and the activation list, empty before, holds 99 after. *)
Lemma toggle_unknown_id_is_stored :
  inCatalog 99 = false /\
  activeEffectIds settled = [] /\
  match click (reliable (fun _ => 0%Q)) 1 99 settled with
  | Returned _ st' => activeEffectIds st' = [99]
  | _ => False
  end.
Proof. vm_compute. repeat split. Qed.

(** ** The name of the artifact *)




Lemma filename_parts (file : option string) (active : list AudioEffect) :
  filename file active =
    (originalName file ++ "-" ++ effectNames active ++ ".mp3")%string.
Proof. reflexivity. Qed.

(** The recording effect, entered while recording, attaches one tap and
    starts one recorder whose [onstop] will use the current file and
    effects. *)
Lemma recordingEffect_starts (h : Host) (s : Session) (c : ContextState)
    (g : AudioNode) :
  isRecording s = true ->
  audioContextRef (engine s) = Some c -> gainNodeRef (engine s) = Some g ->
  recorderRaises h = false ->
  let destination := mkNode (created (engine s)) StreamDestination in
  recordingEffect h s =
    withTap (Some destination)
      (withChunks []
         (withRecorder
            (Some (mkRecorder
                     (if mp3Supported h then "audio/mp3"%string else EmptyString)
                     RecordingNow
                     (filename (audioFile s)
                        (activeEffects (activeEffectIds (engine s))))))
            (withEngine
               (connect g destination (withCreated (S (created (engine s))) (engine s)))
               s))).
Proof.
  intros H1 H2 H3 H4. unfold recordingEffect.
  rewrite H1, H2, H3. cbn [createNode]. rewrite H4. reflexivity.
Qed.

Lemma recordingEffect_idle (h : Host) (s : Session) :
  isRecording s = false -> recordingEffect h s = s.
Proof. intros H. unfold recordingEffect. now rewrite H. Qed.

Lemma stopRecorder_recording (s : Session) (r : MediaRecorder) :
  mediaRecorderRef s = Some r -> state r = RecordingNow ->
  stopRecorder s =
    withChunks []
      (withDownloads (downloads s ++ [onstopName r])
         (withRecorder (Some (mkRecorder (mimeType r) Inactive (onstopName r))) s)).
Proof. intros H1 H2. unfold stopRecorder. rewrite H1, H2. reflexivity. Qed.

Lemma stopRecorder_inactive (s : Session) (r : MediaRecorder) :
  mediaRecorderRef s = Some r -> state r = Inactive -> stopRecorder s = s.
Proof. intros H1 H2. unfold stopRecorder. now rewrite H1, H2. Qed.

Lemma cleanup_downloads (s : Session) (r : MediaRecorder) :
  mediaRecorderRef s = Some r -> state r = Inactive ->
  downloads (cleanup s) = downloads s /\ isRecording (cleanup s) = isRecording s.
Proof.
  intros H1 H2. unfold cleanup. destruct (tap s) as [d |]; [ | now split].
  destruct (gainNodeRef (engine s)) as [g |].
  - rewrite (stopRecorder_inactive _ r); [now split | exact H1 | exact H2].
  - rewrite (stopRecorder_inactive _ r); [now split | exact H1 | exact H2].
Qed.

(** When the track ends or the timer fires during a recording, one artifact
    is saved under the name the recorder's [onstop] closure holds. *)
Lemma handleRecordingEnd_downloads (h : Host) (s : Session) (r : MediaRecorder) :
  mediaRecorderRef s = Some r -> state r = RecordingNow -> isRecording s = true ->
  downloads (handleRecordingEnd h s) = downloads s ++ [onstopName r].
Proof.
  intros H1 H2 H3. unfold handleRecordingEnd. rewrite H1, H2.
  rewrite (stopRecorder_recording s r H1 H2).
  set (s1 := withChunks _ _).
  assert (R1 : mediaRecorderRef s1 =
               Some (mkRecorder (mimeType r) Inactive (onstopName r))) by reflexivity.
  assert (D1 : downloads s1 = downloads s ++ [onstopName r]) by reflexivity.
  assert (I1 : isRecording s1 = true) by exact H3.
  clearbody s1. unfold setIsRecording. rewrite I1. cbn [Bool.eqb].
  set (s2 := withIsRecording false s1).
  assert (R2 : mediaRecorderRef s2 =
               Some (mkRecorder (mimeType r) Inactive (onstopName r))) by exact R1.
  assert (D2 : downloads s2 = downloads s1) by reflexivity.
  assert (I2 : isRecording s2 = false) by reflexivity.
  clearbody s2.
  destruct (cleanup_downloads s2 _ R2 eq_refl) as (D3 & I3).
  rewrite recordingEffect_idle by congruence. congruence.
Qed.

(** C10, as the code has it. Whatever container the recorder produced, the
    artifact handed over when the recording ends is named
    base-effects.mp3, where the base is the part of the file name before
    its first "." and is "audio" when that part is empty or no file is
    there. *)
Theorem artifact_name_shape (h : Host) (s : Session) :
  isRecording s = true ->
  audioContextRef (engine s) <> None ->
  gainNodeRef (engine s) <> None ->
  recorderRaises h = false ->
  let active := activeEffects (activeEffectIds (engine s)) in
  let base :=
    match audioFile s with
    | Some fileName =>
        if truthy (beforeFirst "." fileName) then beforeFirst "." fileName
        else "audio"%string
    | None => "audio"%string
    end in
  downloads (handleRecordingEnd h (recordingEffect h s))
    = downloads s ++ [filename (audioFile s) active] /\
  filename (audioFile s) active
    = (base ++ "-" ++ effectNames active ++ ".mp3")%string /\
  endsWith ".mp3" (filename (audioFile s) active) = true.
Proof.
  intros H1 H2 H3 H4 active base.
  destruct (audioContextRef (engine s)) as [c |] eqn:Ec; [ | congruence].
  destruct (gainNodeRef (engine s)) as [g |] eqn:Eg; [ | congruence].
  split; [ | split].
  - rewrite (recordingEffect_starts h s c g H1 Ec Eg H4). cbv zeta.
    rewrite (handleRecordingEnd_downloads h _
               (mkRecorder (if mp3Supported h then "audio/mp3"%string else EmptyString)
                  RecordingNow (filename (audioFile s) active)));
      [reflexivity | reflexivity | reflexivity | exact H1].
  - rewrite filename_parts. unfold base.
    destruct (audioFile s) as [fileName |]; [ | reflexivity].
    now rewrite originalName_spec.
  - apply filename_mp3.
Qed.

Lemma artifact_name_shape_witness :
  downloads
    (handleRecordingEnd (mkHost (fun _ => false) (fun _ => 0%Q) false false false false)
       (recordingEffect (mkHost (fun _ => false) (fun _ => 0%Q) false false false false)
          (withIsRecording true (opened "my.song.mp3" "blob:1"))))
    = ["my-original.mp3"%string].
Proof.
  apply (proj1 (artifact_name_shape
                  (mkHost (fun _ => false) (fun _ => 0%Q) false false false false)
                  (withIsRecording true (opened "my.song.mp3" "blob:1"))
                  eq_refl ltac:(discriminate) ltac:(discriminate) eq_refl)).
Defined.

(** The claim of C10 fails for a file named ".mp3": the part before the
    first "." is empty, and the base name used is "audio". *)
Lemma hidden_file_gets_default_base :
  beforeFirst "." ".mp3" = EmptyString /\
  originalName (Some ".mp3"%string) = "audio"%string /\
  filename (Some ".mp3"%string) (activeEffects []) = "audio-original.mp3"%string.
Proof. vm_compute. repeat split. Qed.

(** ** A second export request *)



